(** * Quorum-set algebra of [LocalNode] (src/scp/LocalNode.cpp)

    A shallow embedding of the quorum-set functions of stellar-core's
    [LocalNode]: sanity checking, canonicalisation of the node's own quorum
    set, node weights, the quorum-slice and v-blocking predicates, the
    quorum fixed point and the closest v-blocking search, followed by the
    properties the specification states about them. *)

From Stdlib Require Import ZArith Lia.
From stdpp Require Import base decidable option list sets gmap fin_maps.
From Equations Require Import Equations.

Local Open Scope Z_scope.
Set Default Proof Using "Type".
Set Warnings "-register-all,-clear-no-such-hyp".

(** ** Machine integers

    [uint32], [uint64]/[size_t] and [int] values are integers of [Z]; the
    wrap-around of each operation that can leave the range is written out. *)

Module MachineInt.

Definition UINT32_MAX : Z := 2 ^ 32 - 1.
Definition UINT64_MAX : Z := 2 ^ 64 - 1.
Definition INT_MAX : Z := 2 ^ 31 - 1.

(** Reduction into [uint32]. *)
Definition wrap_uint32 (z : Z) : Z := z mod 2 ^ 32.

(** Reduction into [size_t] / [uint64]. *)
Definition wrap_uint64 (z : Z) : Z := z mod 2 ^ 64.

(** The conversion [(int) z] of an unsigned value (two's complement). *)
Definition to_int (z : Z) : Z := (z + 2 ^ 31) mod 2 ^ 32 - 2 ^ 31.

(** [x--] at each of the three types. The decrement of an [int] that
    holds [INT_MIN] is undefined in C++; it is given the two's complement
    result. *)
Definition dec_uint32 (z : Z) : Z := wrap_uint32 (z - 1).
Definition dec_size (z : Z) : Z := wrap_uint64 (z - 1).
Definition dec_int (z : Z) : Z := to_int (z - 1).

(** [std::vector::size()]. A vector of [NodeID]s or quorum sets holds far
    fewer than [2 ^ 63] elements, so the sum of two sizes plus one never
    leaves [size_t] and is taken in [Z] as it is. *)
Definition vsize {A} (l : list A) : Z := Z.of_nat (length l).

End MachineInt.
Import MachineInt.

(** ** Counting loops

    [isQuorumSliceInternal] and [isVBlockingInternal] run the same loop
    twice, over the validators and over the inner sets:
<<
    for (x : xs) if (hit(x)) { left--; if (left <= 0) return true; }
>>
    [countDown] is that loop; it either returns [true] from the enclosing
    function or falls through with the counter it reached. *)

Inductive Flow : Type :=
| ReturnTrue
| FallThrough (left : Z).

Section CountDown.
Context {A : Type} (dec : Z → Z) (hit : A → bool).

Fixpoint countDown (xs : list A) (left : Z) : Flow :=
  match xs with
  | [] => FallThrough left
  | x :: xs' =>
      if hit x then
        let left' := dec left in
        if left' <=? 0 then ReturnTrue else countDown xs' left'
      else countDown xs' left
  end.

(** Number of elements of [xs] the loop body fires on. *)
Definition hits (xs : list A) : Z := vsize (List.filter hit xs).
End CountDown.

Section SCP.
Context {NodeID : Type} `{Countable NodeID}.

(** ** Data model: [SCPQuorumSet] *)

Inductive SCPQuorumSet : Type :=
  mkQSet { threshold : Z;
           validators : list NodeID;
           innerSets : list SCPQuorumSet }.

(** Induction with a hypothesis for every inner set. *)
Fixpoint SCPQuorumSet_nested_ind (P : SCPQuorumSet → Prop)
    (step : ∀ t vs qs, Forall P qs → P (mkQSet t vs qs))
    (q : SCPQuorumSet) : P q :=
  match q with
  | mkQSet t vs qs =>
      step t vs qs
        ((fix all (l : list SCPQuorumSet) : Forall P l :=
            match l with
            | [] => List.Forall_nil P
            | x :: l' =>
                List.Forall_cons P x l' (SCPQuorumSet_nested_ind P step x) (all l')
            end) qs)
  end.

(** [totEntries]: the number of direct entries of a node. *)
Definition totEntries (q : SCPQuorumSet) : Z :=
  vsize (validators q) + vsize (innerSets q).

(** A predicate on every node of the tree. *)
Fixpoint everyNode (p : SCPQuorumSet → bool) (q : SCPQuorumSet) : bool :=
  match q with
  | mkQSet t vs qs => p (mkQSet t vs qs) && forallb (everyNode p) qs
  end.

(** [forAllNodesInternal]: the validators of the tree in the order the
    traversal calls [proc] on them. *)
Fixpoint forAllNodesInternal (qset : SCPQuorumSet) : list NodeID :=
  match qset with
  | mkQSet _ vs qs => vs ++ concat (List.map forAllNodesInternal qs)
  end.

(** [forAllNodes] runs [proc] over the nodes of the traversal through a
    lambda that keeps the set [done] of the nodes it has seen and lets only
    the new ones through. [visitOnce] is that lambda run over the calls of
    the traversal; it gives the nodes [proc] is run on, in order. *)
Fixpoint visitOnce (calls : list NodeID) (done : gset NodeID)
    : list NodeID :=
  match calls with
  | [] => []
  | n :: calls' =>
      if bool_decide (n ∈ done) then visitOnce calls' done
      else n :: visitOnce calls' ({[n]} ∪ done)
  end.

Definition forAllNodes (qset : SCPQuorumSet) : list NodeID :=
  visitOnce (forAllNodesInternal qset) ∅.

(** [buildSingletonQSet]. *)
Definition buildSingletonQSet (nodeID : NodeID) : SCPQuorumSet :=
  mkQSet 1 [nodeID] [].

(** [getSingletonQSet]: a fresh singleton set behind a shared pointer. *)
Definition getSingletonQSet (nodeID : NodeID) : SCPQuorumSet :=
  buildSingletonQSet nodeID.

(** ** Quorum slices *)

(** [std::find(nodeSet.begin(), nodeSet.end(), v) != nodeSet.end()]. *)
Definition found (nodeSet : list NodeID) (v : NodeID) : bool :=
  bool_decide (v ∈ nodeSet).

Fixpoint isQuorumSliceInternal (qset : SCPQuorumSet)
    (nodeSet : list NodeID) : bool :=
  match qset with
  | mkQSet t vs qs =>
      let thresholdLeft := t in
      match countDown dec_uint32 (found nodeSet) vs thresholdLeft with
      | ReturnTrue => true
      | FallThrough thresholdLeft =>
          match countDown dec_uint32
                  (λ inner, isQuorumSliceInternal inner nodeSet)
                  qs thresholdLeft with
          | ReturnTrue => true
          | FallThrough _ => false
          end
      end
  end.

Definition isQuorumSlice (qSet : SCPQuorumSet) (nodeSet : list NodeID)
    : bool :=
  isQuorumSliceInternal qSet nodeSet.

(** ** V-blocking sets *)

Fixpoint isVBlockingInternal (qset : SCPQuorumSet)
    (nodeSet : list NodeID) : bool :=
  match qset with
  | mkQSet t vs qs =>
      if t =? 0 then false
      else
        let leftTillBlock :=
          to_int (wrap_uint64 ((1 + vsize vs + vsize qs) - t)) in
        match countDown dec_int (found nodeSet) vs leftTillBlock with
        | ReturnTrue => true
        | FallThrough leftTillBlock =>
            match countDown dec_int
                    (λ inner, isVBlockingInternal inner nodeSet)
                    qs leftTillBlock with
            | ReturnTrue => true
            | FallThrough _ => false
            end
        end
  end.

Definition isVBlocking (qSet : SCPQuorumSet) (nodeSet : list NodeID)
    : bool :=
  isVBlockingInternal qSet nodeSet.

(** [isVBlocking(qSet, map, filter)] and [isQuorum] read a
    [std::map<NodeID, SCPEnvelope>]; only the [statement] of an envelope is
    looked at. *)
Context {SCPStatement Signature : Type}.

Record SCPEnvelope : Type :=
  mkEnvelope { statement : SCPStatement; signature : Signature }.

(** The keys of [map] whose statement passes [filter]. The order in which
    the keys come out is of no consequence below: the node list is only
    tested for membership and measured. *)
Definition relevantNodes (map : gmap NodeID SCPEnvelope)
    (filter : SCPStatement → bool) : list NodeID :=
  (List.filter (λ it, filter (statement (snd it))) (map_to_list map)).*1.

Definition isVBlockingMap (qSet : SCPQuorumSet)
    (map : gmap NodeID SCPEnvelope) (filter : SCPStatement → bool) : bool :=
  let pNodes := relevantNodes map filter in
  isVBlocking qSet pNodes.

(** ** Sanity of a quorum set

    [knownNodes] is passed by reference and is threaded through as state:
    every function returns its result together with the set it leaves. *)

(** [for (auto const& n : v) { if (!knownNodes.insert(n).second) return
    false; }] *)
Fixpoint insertValidators (v : list NodeID) (knownNodes : gset NodeID)
    : bool * gset NodeID :=
  match v with
  | [] => (true, knownNodes)
  | n :: v' =>
      if bool_decide (n ∈ knownNodes) then (false, knownNodes)
      else insertValidators v' ({[n]} ∪ knownNodes)
  end.

(** The loop over the inner sets, given the recursive call. *)
Section SaneInner.
Context (sane : SCPQuorumSet → gset NodeID → bool * gset NodeID).

Fixpoint saneInner (i : list SCPQuorumSet) (knownNodes : gset NodeID)
    : bool * gset NodeID :=
  match i with
  | [] => (true, knownNodes)
  | iSet :: i' =>
      match sane iSet knownNodes with
      | (false, knownNodes) => (false, knownNodes)
      | (true, knownNodes) => saneInner i' knownNodes
      end
  end.
End SaneInner.

Fixpoint isQuorumSetSaneInternal (nodeID : NodeID) (qSet : SCPQuorumSet)
    (knownNodes : gset NodeID) : bool * gset NodeID :=
  match qSet with
  | mkQSet t v i =>
      let totEntries := vsize v + vsize i in
      if (1 <=? t) && (t <=? totEntries) then
        match insertValidators v knownNodes with
        | (false, knownNodes) => (false, knownNodes)
        | (true, knownNodes) =>
            saneInner (isQuorumSetSaneInternal nodeID) i knownNodes
        end
      else (false, knownNodes)
  end.

(** ** Canonicalisation of the node's own quorum set *)

(** [if (qSet.threshold) qSet.threshold--;]  The guard keeps the [uint32]
    from wrapping. *)
Definition decIfNonZero (threshold : Z) : Z :=
  if threshold =? 0 then threshold else threshold - 1.

(** Both loops of [adjustQSetHelper] walk a vector, erase the elements
    found redundant and lower the threshold for each erased one:
<<
    while (it != xs.end()) {
        auto& x = *it;
        visit(x);
        if (redundant(x)) { it = xs.erase(it); if (t) t--; }
        else it++;
    }
>>
    (the validator loop visits nothing). *)
Section EraseLoop.
Context {A : Type} (visit : A → A) (redundant : A → bool).

Fixpoint eraseLoop (xs : list A) (t : Z) : list A * Z :=
  match xs with
  | [] => ([], t)
  | x :: xs' =>
      let x' := visit x in
      if redundant x' then eraseLoop xs' (decIfNonZero t)
      else let '(kept, t') := eraseLoop xs' t in (x' :: kept, t')
  end.
End EraseLoop.

(** The methods read the member [mNodeID] of the node they are called on;
    it is passed as their first argument. *)
Fixpoint adjustQSetHelper (mNodeID : NodeID) (qSet : SCPQuorumSet)
    : SCPQuorumSet :=
  match qSet with
  | mkQSet t v i =>
      let '(i, t) :=
        eraseLoop (adjustQSetHelper mNodeID) (λ it, threshold it =? 0) i t in
      let '(v, t) :=
        eraseLoop id (λ itv, bool_decide (itv = mNodeID)) v t in
      if (t =? 1) && (vsize v =? 0) && (vsize i =? 1)
      then List.last i (mkQSet t v i)
      else mkQSet t v i
  end.

Definition adjustQSet (mNodeID : NodeID) (qSet : SCPQuorumSet)
    : SCPQuorumSet :=
  let aQSet := adjustQSetHelper mNodeID qSet in
  if negb (threshold aQSet =? 0)
  then mkQSet (1 + 1) [mNodeID] [aQSet]
  else mkQSet 1 [mNodeID] [].

(** ** Node weights *)

(** Modelled from the spec: [bigDivide] (util/types) is not part of the
    sources at hand. The weight is "computed with overflow-safe wide
    multiplication before division (a 128-bit intermediate, or
    equivalent)": the product is exact and the quotient is stored in the
    [uint64] result. *)
Definition bigDivide (A B C : Z) : Z := wrap_uint64 (A * B / C).

(** The loop over the inner sets, given the recursive call: the weight of
    the first inner set that has one, scaled. *)
Section WeightInner.
Context (weight : SCPQuorumSet → Z) (n d : Z).

Fixpoint weightInner (qs : list SCPQuorumSet) : Z :=
  match qs with
  | [] => 0
  | q :: qs' =>
      let leafW := weight q in
      if negb (leafW =? 0) then bigDivide leafW n d
      else weightInner qs'
  end.
End WeightInner.

Fixpoint getNodeWeight (nodeID : NodeID) (qset : SCPQuorumSet) : Z :=
  match qset with
  | mkQSet t vs qs =>
      let n := t in
      let d := vsize qs + vsize vs in
      if existsb (λ qsetNode, bool_decide (qsetNode = nodeID)) vs
      then bigDivide UINT64_MAX n d
      else weightInner (getNodeWeight nodeID) n d qs
  end.

(** ** Quorums *)

Section IsQuorum.
Context (map : gmap NodeID SCPEnvelope).
Context (qfun : SCPStatement → SCPQuorumSet).

(** [quorumFilter]. Every node of [pNodes] is a key of [map], so
    [map.find] always finds it. *)
Definition quorumFilter (pNodes : list NodeID) (nodeID : NodeID) : bool :=
  match map !! nodeID with
  | Some env => isQuorumSlice (qfun (statement env)) pNodes
  | None => false
  end.

(** The body of the [do]/[while]: the nodes [std::copy_if] keeps. *)
Definition filterRound (pNodes : list NodeID) : list NodeID :=
  List.filter (quorumFilter pNodes) pNodes.

(** The [do]/[while] loop. It returns the node list it stops with and
    the number of times its body ran. *)
Equations? quorumLoop (pNodes : list NodeID) : list NodeID * nat
  by wf (length pNodes) lt :=
  quorumLoop pNodes
    with Nat.eq_dec (length pNodes) (length (filterRound pNodes)) => {
    | left _ => (filterRound pNodes, 1%nat)
    | right _ =>
        let '(fNodes, rounds) := quorumLoop (filterRound pNodes) in
        (fNodes, S rounds) }.
Proof.
  pose proof (List.filter_length_le (quorumFilter pNodes) pNodes).
  unfold filterRound in *. lia.
Qed.
End IsQuorum.

Definition isQuorum (qSet : SCPQuorumSet) (map : gmap NodeID SCPEnvelope)
    (qfun : SCPStatement → SCPQuorumSet) (filter : SCPStatement → bool)
    : bool :=
  let pNodes := relevantNodes map filter in
  let pNodes := fst (quorumLoop map qfun pNodes) in
  isQuorumSlice qSet pNodes.

(** Number of times the body of the loop of [isQuorum] runs. *)
Definition isQuorum_rounds (map : gmap NodeID SCPEnvelope)
    (qfun : SCPStatement → SCPQuorumSet) (filter : SCPStatement → bool)
    : nat :=
  snd (quorumLoop map qfun (relevantNodes map filter)).

(** ** Closest v-blocking set *)

(** [resInternals.emplace(v)] on a
    [std::multiset<std::vector<NodeID>, orderBySize>], kept as the list of
    its elements in iteration order: [v] goes behind the elements that are
    not larger than it. *)
Fixpoint emplaceBySize (v : list NodeID) (resInternals : list (list NodeID))
    : list (list NodeID) :=
  match resInternals with
  | [] => [v]
  | w :: rest =>
      if (length v <? length w)%nat then v :: w :: rest
      else w :: emplaceBySize v rest
  end.

(** The loop over the validators. [None] stands for the early
    [return std::vector<NodeID>()]. *)
Fixpoint closestValidators (nodes : gset NodeID) (vs : list NodeID)
    (leftTillBlock : Z) (res : list NodeID) : option (Z * list NodeID) :=
  match vs with
  | [] => Some (leftTillBlock, res)
  | validator :: vs' =>
      if bool_decide (validator ∈ nodes)
      then closestValidators nodes vs' leftTillBlock (res ++ [validator])
      else
        let leftTillBlock := dec_size leftTillBlock in
        if leftTillBlock =? 0 then None
        else closestValidators nodes vs' leftTillBlock res
  end.

(** The loop over the inner sets, given the recursive call. *)
Section ClosestInner.
Context (closest : SCPQuorumSet → list NodeID).

Fixpoint closestInner (qs : list SCPQuorumSet) (leftTillBlock : Z)
    (resInternals : list (list NodeID))
    : option (Z * list (list NodeID)) :=
  match qs with
  | [] => Some (leftTillBlock, resInternals)
  | inner :: qs' =>
      let v := closest inner in
      if vsize v =? 0 then
        let leftTillBlock := dec_size leftTillBlock in
        if leftTillBlock =? 0 then None
        else closestInner qs' leftTillBlock resInternals
      else closestInner qs' leftTillBlock (emplaceBySize v resInternals)
  end.
End ClosestInner.

(** [while (leftTillBlock != 0 && it != resInternals.end())]. *)
Fixpoint consumeInternals (resInternals : list (list NodeID))
    (leftTillBlock : Z) (res : list NodeID) : list NodeID :=
  match resInternals with
  | [] => res
  | it :: rest =>
      if leftTillBlock =? 0 then res
      else consumeInternals rest (dec_size leftTillBlock) (res ++ it)
  end.

Fixpoint findClosestVBlocking (qset : SCPQuorumSet) (nodes : gset NodeID)
    : list NodeID :=
  match qset with
  | mkQSet t vs qs =>
      let leftTillBlock := wrap_uint64 ((1 + vsize vs + vsize qs) - t) in
      match closestValidators nodes vs leftTillBlock [] with
      | None => []
      | Some (leftTillBlock, res) =>
          match closestInner (λ inner, findClosestVBlocking inner nodes)
                  qs leftTillBlock [] with
          | None => []
          | Some (leftTillBlock, resInternals) =>
              let res :=
                if vsize res >? leftTillBlock
                then take (Z.to_nat leftTillBlock) res
                else res in
              let leftTillBlock := wrap_uint64 (leftTillBlock - vsize res) in
              consumeInternals resInternals leftTillBlock res
          end
      end
  end.

Definition findClosestVBlockingMap (qset : SCPQuorumSet)
    (map : gmap NodeID SCPEnvelope) (filter : SCPStatement → bool)
    : list NodeID :=
  let s : gset NodeID := list_to_set (relevantNodes map filter) in
  findClosestVBlocking qset s.

(** ** The local node

    The secret key, the hash and the handle on the enclosing [SCP] object
    are opaque here, and so are the functions deriving the public key,
    serialising a quorum set and hashing. *)

Section LocalNodeState.
Context {SecretKey Hash SCPHandle : Type}.
Context (getPublicKey : SecretKey → NodeID).
Context (xdr_to_opaque : SCPQuorumSet → list Byte.byte).
Context (sha256 : list Byte.byte → Hash).

Record LocalNode : Type :=
  mkLocalNode { mNodeID : NodeID;
                mSecretKey : SecretKey;
                mIsValidator : bool;
                mQSet : SCPQuorumSet;
                mQSetHash : Hash;
                gSingleQSetHash : Hash;
                mSingleQSet : SCPQuorumSet;
                mSCP : SCPHandle }.

(** The constructor. *)
Definition newLocalNode (secretKey : SecretKey) (isValidator : bool)
    (qSet : SCPQuorumSet) (scp : SCPHandle) : LocalNode :=
  let nodeID := getPublicKey secretKey in
  let qSet := adjustQSet nodeID qSet in
  let singleQSet := buildSingletonQSet nodeID in
  {| mNodeID := nodeID;
     mSecretKey := secretKey;
     mIsValidator := isValidator;
     mQSet := qSet;
     mQSetHash := sha256 (xdr_to_opaque qSet);
     gSingleQSetHash := sha256 (xdr_to_opaque singleQSet);
     mSingleQSet := singleQSet;
     mSCP := scp |}.

Definition isQuorumSetSane (this : LocalNode) (nodeID : NodeID)
    (qSet : SCPQuorumSet) : bool :=
  let '(wellFormed, allValidators) :=
    isQuorumSetSaneInternal nodeID qSet ∅ in
  wellFormed &&
    (bool_decide (nodeID ∈ allValidators) ||
     (negb (mIsValidator this) && bool_decide (nodeID = mNodeID this))).

Definition updateQuorumSet (this : LocalNode) (qSet : SCPQuorumSet)
    : LocalNode :=
  {| mNodeID := mNodeID this;
     mSecretKey := mSecretKey this;
     mIsValidator := mIsValidator this;
     mQSet := qSet;
     mQSetHash := sha256 (xdr_to_opaque qSet);
     gSingleQSetHash := gSingleQSetHash this;
     mSingleQSet := mSingleQSet this;
     mSCP := mSCP this |}.

Definition getQuorumSet (this : LocalNode) : SCPQuorumSet := mQSet this.
Definition getQuorumSetHash (this : LocalNode) : Hash := mQSetHash this.
Definition getSecretKey (this : LocalNode) : SecretKey := mSecretKey this.
Definition getNodeID (this : LocalNode) : NodeID := mNodeID this.
Definition isValidator (this : LocalNode) : bool := mIsValidator this.
End LocalNodeState.

(** ** Notions of the specification *)

(** "every node's [threshold] lies in [[1, totalEntries]]". *)
Definition thresholdInRange (q : SCPQuorumSet) : bool :=
  (1 <=? threshold q) && (threshold q <=? totEntries q).

(** A node whose threshold is 0 or exceeds its number of direct entries. *)
Definition thresholdOutOfRange (q : SCPQuorumSet) : bool :=
  (threshold q =? 0) || (totEntries q <? threshold q).

(** Some node of the tree satisfies [p]. *)
Fixpoint someNode (p : SCPQuorumSet → bool) (q : SCPQuorumSet) : bool :=
  match q with
  | mkQSet t vs qs => p (mkQSet t vs qs) || existsb (someNode p) qs
  end.

(** The well-formedness invariant of the data model: thresholds in range
    at every node, and the validators of the whole tree pairwise
    distinct. *)
Definition wellFormed (q : SCPQuorumSet) : Prop :=
  everyNode thresholdInRange q = true ∧ NoDup (forAllNodesInternal q).

(** The threshold is a [uint32] that is at least 1. *)
Definition thresholdPositive (q : SCPQuorumSet) : bool :=
  (1 <=? threshold q) && (threshold q <=? UINT32_MAX).

(** The number of direct entries of the node is a value of [int]. *)
Definition entriesFitInt (q : SCPQuorumSet) : bool :=
  totEntries q <=? INT_MAX.

(** The semantic meaning of a quorum set, in the words of the
    specification: a quorum set is satisfied by [S] if at least [threshold]
    of its direct entries are, a validator being satisfied iff it is a
    member of [S] and an inner set iff it is itself satisfied by [S]. *)
Fixpoint satisfied (q : SCPQuorumSet) (S : list NodeID) : bool :=
  match q with
  | mkQSet t vs qs =>
      t <=? hits (λ v, bool_decide (v ∈ S)) vs
            + hits (λ inner, satisfied inner S) qs
  end.

(** The threshold is a value of its type, [uint32]. *)
Definition thresholdUint32 (q : SCPQuorumSet) : bool :=
  (0 <=? threshold q) && (threshold q <=? UINT32_MAX).

(** The remainder of a raw quorum set, in the words of the specification
    (canonicaliser, steps 1 to 3): the local node is stripped from the
    validators of every node, every inner set whose threshold has come
    down to 0 is dropped from its parent, the threshold of a node is
    lowered by one for each validator stripped from it and each inner set
    dropped from it, and a node [{threshold=1, validators=[],
    innerSets=[single]}] is collapsed into [single]. The rewriting goes
    bottom-up. A threshold is unsigned: lowering it stops at 0. *)
Fixpoint strippedRemainder (self : NodeID) (q : SCPQuorumSet)
    : SCPQuorumSet :=
  match q with
  | mkQSet t vs qs =>
      let stripped := List.filter (λ v, negb (bool_decide (v = self))) vs in
      let kept :=
        List.filter (λ r, negb (threshold r =? 0))
          (List.map (strippedRemainder self) qs) in
      let removals :=
        (vsize vs - vsize stripped) + (vsize qs - vsize kept) in
      let lowered := Z.max 0 (t - removals) in
      match stripped, kept with
      | [], [single] =>
          if lowered =? 1 then single else mkQSet lowered stripped kept
      | _, _ => mkQSet lowered stripped kept
      end
  end.

(** The normal form [adjustQSetHelper] produces: at every node no inner
    set has threshold 0, [self] is not a validator, and the node is not a
    wrapper [{t: 1, { innerSet }}]. *)
Definition adjustedNode (self : NodeID) (q : SCPQuorumSet) : bool :=
  forallb (λ it, negb (threshold it =? 0)) (innerSets q)
  && forallb (λ itv, negb (bool_decide (itv = self))) (validators q)
  && negb ((threshold q =? 1) && (vsize (validators q) =? 0)
           && (vsize (innerSets q) =? 1)).

(** * Properties *)

(** ** Machine integers and counting loops *)

Lemma dec_uint32_exact z : 1 ≤ z ≤ UINT32_MAX → dec_uint32 z = z - 1.
Proof.
  unfold dec_uint32, wrap_uint32, UINT32_MAX. intros Hz.
  apply Z.mod_small. lia.
Qed.

Lemma dec_int_exact z : 1 ≤ z ≤ INT_MAX → dec_int z = z - 1.
Proof.
  unfold dec_int, to_int, INT_MAX. intros Hz.
  rewrite Z.mod_small by lia. lia.
Qed.

Lemma dec_size_exact z : 1 ≤ z ≤ UINT64_MAX → dec_size z = z - 1.
Proof.
  unfold dec_size, wrap_uint64, UINT64_MAX. intros Hz.
  apply Z.mod_small. lia.
Qed.

Lemma vsize_nonneg {A} (l : list A) : 0 ≤ vsize l.
Proof. unfold vsize. lia. Qed.

Lemma vsize_cons {A} (x : A) l : vsize (x :: l) = 1 + vsize l.
Proof. unfold vsize. simpl. lia. Qed.

Section Hits.
Context {A : Type}.
Implicit Types (f g : A → bool) (xs : list A).

Lemma hits_nil f : hits f [] = 0.
Proof. reflexivity. Qed.

Lemma hits_cons f x xs :
  hits f (x :: xs) = (if f x then 1 else 0) + hits f xs.
Proof.
  unfold hits. simpl. destruct (f x); [apply vsize_cons | lia].
Qed.

Lemma hits_bounds f xs : 0 ≤ hits f xs ≤ vsize xs.
Proof.
  induction xs as [|x xs IH]; [rewrite hits_nil; unfold vsize; simpl; lia|].
  rewrite hits_cons, vsize_cons. destruct (f x); lia.
Qed.

Lemma hits_negb f xs : hits (λ x, negb (f x)) xs = vsize xs - hits f xs.
Proof.
  induction xs as [|x xs IH]; [reflexivity|].
  rewrite !hits_cons, vsize_cons, IH. destruct (f x); simpl; lia.
Qed.

Lemma hits_mono f g xs :
  Forall (λ x, f x = true → g x = true) xs → hits f xs ≤ hits g xs.
Proof.
  induction 1 as [|x xs Hx _ IH]; [by rewrite !hits_nil|].
  rewrite !hits_cons. destruct (f x) eqn:Hf.
  - rewrite Hx by done. lia.
  - destruct (g x); lia.
Qed.

(** Pigeonhole: two loops that together fire more often than there are
    elements fire on a common element. *)
Lemma hits_overlap f g xs :
  vsize xs < hits f xs + hits g xs →
  Exists (λ x, f x = true ∧ g x = true) xs.
Proof.
  induction xs as [|x xs IH].
  - rewrite !hits_nil. unfold vsize. simpl. lia.
  - rewrite !hits_cons, vsize_cons. intros Hlt.
    destruct (f x) eqn:Hf, (g x) eqn:Hg;
      try (apply Exists_cons_tl, IH; lia).
    apply Exists_cons_hd. done.
Qed.

(** The counting loop, as long as its counter stays in the range where
    [dec] is an exact decrement: it returns as soon as [left] elements
    were hit. *)
Lemma countDown_exact (dec : Z → Z) (M : Z) f :
  (∀ z, 1 ≤ z ≤ M → dec z = z - 1) →
  ∀ xs left, 1 ≤ left ≤ M →
    countDown dec f xs left =
      if left <=? hits f xs then ReturnTrue
      else FallThrough (left - hits f xs).
Proof.
  intros Hdec xs. induction xs as [|x xs IH]; intros left Hleft.
  - rewrite hits_nil. simpl. destruct (Z.leb_spec left 0); [lia|].
    f_equal. lia.
  - rewrite hits_cons. simpl. pose proof (hits_bounds f xs) as Hb.
    destruct (f x).
    + rewrite Hdec by done.
      destruct (Z.leb_spec (left - 1) 0).
      * destruct (Z.leb_spec left (1 + hits f xs)); [done | lia].
      * rewrite IH by lia.
        destruct (Z.leb_spec (left - 1) (hits f xs)),
                 (Z.leb_spec left (1 + hits f xs)); try lia; try done.
        f_equal. lia.
    + rewrite IH by done. done.
Qed.
End Hits.

Lemma everyNode_unfold p t vs qs :
  everyNode p (mkQSet t vs qs) = true ↔
  p (mkQSet t vs qs) = true ∧ Forall (λ q, everyNode p q = true) qs.
Proof.
  simpl. rewrite andb_true_iff, forallb_forall, Forall_forall.
  by setoid_rewrite list_elem_of_In.
Qed.

(** ** The validators of a tree *)

Lemma elem_of_forAllNodesInternal t vs qs n :
  n ∈ forAllNodesInternal (mkQSet t vs qs) ↔
  n ∈ vs ∨ ∃ q, q ∈ qs ∧ n ∈ forAllNodesInternal q.
Proof.
  simpl. rewrite elem_of_app, (list_elem_of_In (concat _) n), in_concat.
  split; (intros [Hv|Hq]; [by left | right]).
  - destruct Hq as (l & Hl & Hn). apply in_map_iff in Hl as (q & <- & Hq).
    exists q. by rewrite !list_elem_of_In.
  - destruct Hq as (q & Hq & Hn). exists (forAllNodesInternal q).
    rewrite !list_elem_of_In in *. split; [by apply in_map | done].
Qed.

Lemma elem_of_forAllNodesInternal_validator t vs qs n :
  n ∈ vs → n ∈ forAllNodesInternal (mkQSet t vs qs).
Proof. intros Hn. apply elem_of_forAllNodesInternal. by left. Qed.

Lemma elem_of_forAllNodesInternal_inner t vs qs q n :
  q ∈ qs → n ∈ forAllNodesInternal q →
  n ∈ forAllNodesInternal (mkQSet t vs qs).
Proof. intros Hq Hn. apply elem_of_forAllNodesInternal. right. eauto. Qed.

(** ** Quorum slices and v-blocking sets, by counting *)

Lemma found_nil v : found [] v = false.
Proof. apply bool_decide_eq_false_2, not_elem_of_nil. Qed.

Lemma found_cons x nodeSet v :
  found (x :: nodeSet) v = bool_decide (v = x) || found nodeSet v.
Proof.
  unfold found. rewrite <- bool_decide_or.
  apply bool_decide_ext, elem_of_cons.
Qed.

Lemma isQuorumSliceInternal_eq t vs qs nodeSet :
  isQuorumSliceInternal (mkQSet t vs qs) nodeSet =
    match countDown dec_uint32 (found nodeSet) vs t with
    | ReturnTrue => true
    | FallThrough thresholdLeft =>
        match countDown dec_uint32
                (λ inner, isQuorumSliceInternal inner nodeSet)
                qs thresholdLeft with
        | ReturnTrue => true
        | FallThrough _ => false
        end
    end.
Proof. reflexivity. Qed.

Lemma isVBlockingInternal_eq t vs qs nodeSet :
  isVBlockingInternal (mkQSet t vs qs) nodeSet =
    if t =? 0 then false
    else
      match countDown dec_int (found nodeSet) vs
              (to_int (wrap_uint64 ((1 + vsize vs + vsize qs) - t))) with
      | ReturnTrue => true
      | FallThrough leftTillBlock =>
          match countDown dec_int
                  (λ inner, isVBlockingInternal inner nodeSet)
                  qs leftTillBlock with
          | ReturnTrue => true
          | FallThrough _ => false
          end
      end.
Proof. reflexivity. Qed.

Lemma isQuorumSliceInternal_count t vs qs nodeSet :
  1 ≤ t ≤ UINT32_MAX →
  isQuorumSliceInternal (mkQSet t vs qs) nodeSet =
    (t <=? hits (found nodeSet) vs
           + hits (λ inner, isQuorumSliceInternal inner nodeSet) qs).
Proof.
  intros Ht. rewrite isQuorumSliceInternal_eq.
  pose proof (hits_bounds (found nodeSet) vs) as Hv.
  pose proof (hits_bounds (λ inner, isQuorumSliceInternal inner nodeSet) qs)
    as Hq.
  rewrite (countDown_exact dec_uint32 UINT32_MAX)
    by (apply dec_uint32_exact || done).
  destruct (Z.leb_spec t (hits (found nodeSet) vs)).
  - symmetry. apply Z.leb_le. lia.
  - rewrite (countDown_exact dec_uint32 UINT32_MAX)
      by (apply dec_uint32_exact || lia).
    destruct (Z.leb_spec (t - hits (found nodeSet) vs)
                (hits (λ inner, isQuorumSliceInternal inner nodeSet) qs));
      symmetry; [apply Z.leb_le | apply Z.leb_gt]; lia.
Qed.

Lemma isVBlockingInternal_count t vs qs nodeSet :
  1 ≤ t ≤ vsize vs + vsize qs → vsize vs + vsize qs ≤ INT_MAX →
  isVBlockingInternal (mkQSet t vs qs) nodeSet =
    ((1 + vsize vs + vsize qs) - t
       <=? hits (found nodeSet) vs
           + hits (λ inner, isVBlockingInternal inner nodeSet) qs).
Proof.
  intros Ht Hn. rewrite isVBlockingInternal_eq.
  pose proof (hits_bounds (found nodeSet) vs) as Hv.
  pose proof (hits_bounds (λ inner, isVBlockingInternal inner nodeSet) qs)
    as Hq.
  destruct (Z.eqb_spec t 0); [lia|].
  assert (to_int (wrap_uint64 (1 + vsize vs + vsize qs - t))
          = 1 + vsize vs + vsize qs - t) as ->.
  { unfold to_int, wrap_uint64, INT_MAX in *.
    rewrite (Z.mod_small (_ - t)) by lia. rewrite Z.mod_small by lia. lia. }
  set (L := 1 + vsize vs + vsize qs - t).
  rewrite (countDown_exact dec_int INT_MAX) by (apply dec_int_exact || lia).
  destruct (Z.leb_spec L (hits (found nodeSet) vs)).
  - symmetry. apply Z.leb_le. lia.
  - rewrite (countDown_exact dec_int INT_MAX) by (apply dec_int_exact || lia).
    destruct (Z.leb_spec (L - hits (found nodeSet) vs)
                (hits (λ inner, isVBlockingInternal inner nodeSet) qs));
      symmetry; [apply Z.leb_le | apply Z.leb_gt]; lia.
Qed.

Lemma hits_ext {A} (f g : A → bool) xs :
  Forall (λ x, f x = g x) xs → hits f xs = hits g xs.
Proof.
  induction 1 as [|x xs Hx _ IH]; [done|].
  by rewrite !hits_cons, Hx, IH.
Qed.

Lemma isQuorumSliceInternal_satisfied Q S :
  everyNode thresholdPositive Q = true →
  isQuorumSliceInternal Q S = satisfied Q S.
Proof.
  induction Q as [t vs qs IH] using SCPQuorumSet_nested_ind.
  rewrite everyNode_unfold. intros [Ht Hqs].
  apply andb_true_iff in Ht as [Ht1 Ht2].
  apply Z.leb_le in Ht1, Ht2. simpl in Ht1, Ht2.
  rewrite isQuorumSliceInternal_count by done.
  cbn [satisfied]. f_equal. f_equal.
  apply hits_ext. rewrite Forall_forall in *. auto.
Qed.

(** ** C2: a quorum slice is a set satisfying the threshold tree *)

(** C2. For a quorum set [Q] whose thresholds are at least 1 at every
    node and a node set [S], [isQuorumSlice Q S] is true iff [S] satisfies
    [Q] in the sense of the specification (at least [threshold] direct
    entries satisfied, recursively); and for pairwise distinct [A], [B],
    [C] the set [{threshold=2, validators=[A,B,C]}] is a slice of [{A,B}]
    but neither of [{A}] nor of the empty set. *)
Theorem isQuorumSlice_threshold_exact (Q : SCPQuorumSet) (S : list NodeID)
    (A B C : NodeID) :
  everyNode thresholdPositive Q = true →
  A ≠ B → A ≠ C → B ≠ C →
  (isQuorumSlice Q S = true ↔ satisfied Q S = true) ∧
  isQuorumSlice (mkQSet 2 [A; B; C] []) [A; B] = true ∧
  isQuorumSlice (mkQSet 2 [A; B; C] []) [A] = false ∧
  isQuorumSlice (mkQSet 2 [A; B; C] []) [] = false.
Proof.
  intros HQ HAB HAC HBC. unfold isQuorumSlice. split.
  { by rewrite isQuorumSliceInternal_satisfied. }
  rewrite !isQuorumSliceInternal_count by (unfold UINT32_MAX; lia).
  rewrite !hits_cons, !hits_nil, !found_cons, !found_nil.
  rewrite (bool_decide_eq_true_2 (A = A)),
    (bool_decide_eq_true_2 (B = B)) by reflexivity.
  rewrite (bool_decide_eq_false_2 (B = A)),
    (bool_decide_eq_false_2 (C = A)),
    (bool_decide_eq_false_2 (C = B)) by congruence.
  done.
Qed.

(** ** C1: v-blocking is the dual of the quorum-slice test *)

Lemma thresholdInRange_fits t vs qs :
  thresholdInRange (mkQSet t vs qs) = true →
  entriesFitInt (mkQSet t vs qs) = true →
  1 ≤ t ≤ vsize vs + vsize qs ∧ vsize vs + vsize qs ≤ INT_MAX.
Proof.
  unfold thresholdInRange, entriesFitInt, totEntries. simpl.
  rewrite andb_true_iff, !Z.leb_le. lia.
Qed.

Lemma vblocking_meets_slice Q S T :
  everyNode thresholdInRange Q = true →
  everyNode entriesFitInt Q = true →
  (∀ n, n ∈ T → n ∉ S) →
  isVBlockingInternal Q S = true →
  isQuorumSliceInternal Q T = true → False.
Proof.
  intros HR HF Hdisj.
  induction Q as [t vs qs IH] using SCPQuorumSet_nested_ind.
  apply everyNode_unfold in HR as [HR HRq], HF as [HF HFq].
  destruct (thresholdInRange_fits _ _ _ HR HF) as [Ht Hn].
  rewrite isVBlockingInternal_count by done.
  rewrite isQuorumSliceInternal_count by (unfold UINT32_MAX, INT_MAX in *; lia).
  rewrite !Z.leb_le. intros Hvb Hqs.
  destruct (Z.lt_ge_cases (vsize vs) (hits (found S) vs + hits (found T) vs))
    as [Hv|Hv].
  - apply hits_overlap, Exists_exists in Hv as (v & _ & HvS & HvT).
    unfold found in *. apply bool_decide_eq_true in HvS, HvT.
    by apply (Hdisj v).
  - assert (vsize qs
            < hits (λ inner, isVBlockingInternal inner S) qs
              + hits (λ inner, isQuorumSliceInternal inner T) qs) as Hq by lia.
    apply hits_overlap, Exists_exists in Hq as (q & Hin & HqS & HqT).
    rewrite Forall_forall in IH, HRq, HFq. eauto.
Qed.

Lemma not_vblocking_slice Q S T :
  everyNode thresholdInRange Q = true →
  everyNode entriesFitInt Q = true →
  (∀ n, n ∈ forAllNodesInternal Q → n ∉ S → n ∈ T) →
  isVBlockingInternal Q S = false →
  isQuorumSliceInternal Q T = true.
Proof.
  induction Q as [t vs qs IH] using SCPQuorumSet_nested_ind.
  intros HR HF Hcover.
  apply everyNode_unfold in HR as [HR HRq], HF as [HF HFq].
  destruct (thresholdInRange_fits _ _ _ HR HF) as [Ht Hn].
  rewrite isVBlockingInternal_count by done.
  rewrite isQuorumSliceInternal_count by (unfold UINT32_MAX, INT_MAX in *; lia).
  rewrite Z.leb_gt, Z.leb_le. intros Hvb.
  assert (hits (λ v, negb (found S v)) vs ≤ hits (found T) vs) as Hv.
  { apply hits_mono, Forall_forall. intros v Hin Hneg.
    unfold found in *. apply negb_true_iff, bool_decide_eq_false in Hneg.
    apply bool_decide_eq_true, Hcover; [|done].
    by apply elem_of_forAllNodesInternal_validator. }
  assert (hits (λ inner, negb (isVBlockingInternal inner S)) qs
          ≤ hits (λ inner, isQuorumSliceInternal inner T) qs) as Hq.
  { apply hits_mono, Forall_forall. intros q Hin Hneg.
    apply negb_true_iff in Hneg.
    rewrite Forall_forall in IH, HRq, HFq.
    apply IH; auto. intros n Hn'. apply Hcover.
    by apply (elem_of_forAllNodesInternal_inner t vs qs q). }
  rewrite (hits_negb (found S)) in Hv.
  rewrite (hits_negb (λ inner, isVBlockingInternal inner S)) in Hq.
  lia.
Qed.

(** C1. For a well-formed quorum set [Q] (thresholds in range at every
    node, no validator named twice; each node's entry count within [int])
    and a node set [S], [isVBlocking Q S] is true iff no node set [T]
    disjoint from [S] is a quorum slice of [Q]. *)
Theorem isVBlocking_dual (Q : SCPQuorumSet) (S : list NodeID) :
  wellFormed Q →
  everyNode entriesFitInt Q = true →
  isVBlocking Q S = true ↔
  ¬ ∃ T : list NodeID, (∀ n, n ∈ T → n ∉ S) ∧ isQuorumSlice Q T = true.
Proof.
  intros [HR _] HF. unfold isVBlocking, isQuorumSlice. split.
  - intros Hvb (T & Hdisj & Hqs).
    by apply (vblocking_meets_slice Q S T).
  - intros Hnone.
    destruct (isVBlockingInternal Q S) eqn:Hvb; [done|].
    exfalso. apply Hnone.
    exists (List.filter (λ n, negb (found S n)) (forAllNodesInternal Q)).
    split.
    + intros n Hn. apply list_elem_of_In, filter_In in Hn as [_ Hn].
      unfold found in Hn.
      by apply negb_true_iff, bool_decide_eq_false in Hn.
    + apply (not_vblocking_slice Q S); [done..| |done].
      intros n Hin HnS. apply list_elem_of_In, filter_In.
      split; [by apply list_elem_of_In|].
      unfold found. by apply negb_true_iff, bool_decide_eq_false.
Qed.

(** *** Beyond [INT_MAX] entries

    The bound on the entries is needed. With more than [INT_MAX + 1]
    direct entries the conversion [(int)] turns [leftTillBlock] negative,
    and the first validator found in the node set ends the loop with
    [true]. *)

Lemma countDown_first_hit {A} (dec : Z → Z) (hit : A → bool) x xs left :
  hit x = true → dec left ≤ 0 →
  countDown dec hit (x :: xs) left = ReturnTrue.
Proof.
  intros Hx Hdec. simpl. rewrite Hx.
  by destruct (Z.leb_spec (dec left) 0); [|lia].
Qed.

Lemma to_int_negative z :
  INT_MAX < z ≤ UINT32_MAX → to_int z = z - 2 ^ 32.
Proof.
  unfold to_int, INT_MAX, UINT32_MAX. intros Hz.
  replace (z + 2 ^ 31) with (z - 2 ^ 31 + 1 * 2 ^ 32) by lia.
  rewrite Z.mod_add by lia. rewrite Z.mod_small by lia. lia.
Qed.

(** A flat quorum set with threshold 1 and between [INT_MAX + 2] and
    [UINT32_MAX] pairwise distinct validators is well formed, its first
    validator alone is reported v-blocking, and its second validator alone
    is a quorum slice. *)
Lemma isVBlocking_int_cast_overflow (x y : NodeID) (rest : list NodeID) :
  NoDup (x :: y :: rest) →
  INT_MAX ≤ vsize rest ≤ UINT32_MAX - 2 →
  wellFormed (mkQSet 1 (x :: y :: rest) [])
  ∧ everyNode entriesFitInt (mkQSet 1 (x :: y :: rest) []) = false
  ∧ isVBlocking (mkQSet 1 (x :: y :: rest) []) [x] = true
  ∧ isQuorumSlice (mkQSet 1 (x :: y :: rest) []) [y] = true.
Proof.
  intros Hnodup Hsize.
  assert (x ≠ y) as Hxy.
  { apply NoDup_cons in Hnodup as [Hx _]. intros ->. apply Hx. by left. }
  assert (vsize (x :: y :: rest) = 2 + vsize rest) as Hentries
    by (rewrite !vsize_cons; lia).
  unfold INT_MAX, UINT32_MAX in Hsize.
  split_and!.
  - split;
      [|cbn [forAllNodesInternal List.map concat]; by rewrite app_nil_r].
    apply everyNode_unfold. split; [|constructor].
    unfold thresholdInRange, totEntries.
    cbn [threshold validators innerSets]. rewrite Hentries.
    apply andb_true_iff. rewrite !Z.leb_le.
    change (vsize (@nil SCPQuorumSet)) with 0. lia.
  - cbn [everyNode forallb]. rewrite andb_true_r.
    unfold entriesFitInt, totEntries.
    cbn [threshold validators innerSets]. rewrite Hentries.
    change (vsize (@nil SCPQuorumSet)) with 0.
    apply Z.leb_gt. unfold INT_MAX. lia.
  - unfold isVBlocking. rewrite isVBlockingInternal_eq.
    change (1 =? 0) with false. cbv iota.
    rewrite countDown_first_hit; [done | |].
    + apply bool_decide_eq_true. by left.
    + rewrite Hentries. change (vsize (@nil SCPQuorumSet)) with 0.
      unfold wrap_uint64. rewrite Z.mod_small by lia.
      rewrite to_int_negative by (unfold INT_MAX, UINT32_MAX; lia).
      unfold dec_int, to_int. rewrite Z.mod_small by lia. lia.
  - unfold isQuorumSlice. rewrite isQuorumSliceInternal_eq.
    cbn [countDown]. unfold found at 1.
    rewrite bool_decide_eq_false_2
      by (intros Hin; apply list_elem_of_singleton in Hin; done).
    unfold found at 1. rewrite bool_decide_eq_true_2 by (by left).
    by change (dec_uint32 1 <=? 0) with true.
Qed.

(** ** C5, C6: the sanity check *)

Lemma insertValidators_true v knownNodes knownNodes' :
  insertValidators v knownNodes = (true, knownNodes') ↔
  NoDup v ∧ (∀ x, x ∈ v → x ∉ knownNodes)
  ∧ knownNodes' = list_to_set v ∪ knownNodes.
Proof.
  revert knownNodes. induction v as [|n v IH]; intros knownNodes; simpl.
  - split.
    + intros [= <-]. split_and!; [constructor | set_solver | set_solver].
    + intros (_ & _ & ->). f_equal. set_solver.
  - case_bool_decide as Hn.
    + split; [done|]. intros (_ & Hfresh & _).
      destruct (Hfresh n); [left | done].
    + rewrite IH, NoDup_cons. split.
      * intros (Hnd & Hfresh & ->). split_and!; [set_solver.. |].
        set_solver.
      * intros ([Hnv Hnd] & Hfresh & ->). split_and!; [done | | set_solver].
        intros x Hx. pose proof (Hfresh x). set_solver.
Qed.

Lemma saneInner_true sane P qs :
  Forall (λ q, ∀ known known',
            sane q known = (true, known') ↔
            P q ∧ NoDup (forAllNodesInternal q)
            ∧ (∀ x, x ∈ forAllNodesInternal q → x ∉ known)
            ∧ known' = list_to_set (forAllNodesInternal q) ∪ known) qs →
  ∀ known known',
    saneInner sane qs known = (true, known') ↔
    Forall P qs
    ∧ NoDup (concat (List.map forAllNodesInternal qs))
    ∧ (∀ x, x ∈ concat (List.map forAllNodesInternal qs) → x ∉ known)
    ∧ known' = list_to_set (concat (List.map forAllNodesInternal qs)) ∪ known.
Proof.
  induction 1 as [|q qs Hq _ IH]; intros known known'; simpl.
  - split.
    + intros [= <-]. split_and!; [done | constructor | set_solver..].
    + intros (_ & _ & _ & ->). f_equal. set_solver.
  - destruct (sane q known) as [[] known1] eqn:Hsane.
    + apply Hq in Hsane as (HP & Hnd & Hfresh & ->).
      rewrite IH, Forall_cons, NoDup_app, list_to_set_app_L. split.
      * intros (HPs & Hnds & Hfreshs & ->).
        split_and!; [done.. | set_solver | done | set_solver | set_solver].
      * intros ([_ HPs] & (_ & Hdisj & Hnds) & Hfreshs & ->).
        split_and!; [done.. | | set_solver].
        intros x Hx. pose proof (Hfreshs x). pose proof (Hdisj x).
        set_solver.
    + split; [done|].
      intros ([HP _]%Forall_cons & (Hnd & _)%NoDup_app & Hfresh & _).
      assert (sane q known
              = (true, list_to_set (forAllNodesInternal q) ∪ known)) as Heq.
      { apply Hq. split_and!; [done.. | | done].
        intros x Hx. apply Hfresh, elem_of_app. by left. }
      congruence.
Qed.

Lemma isQuorumSetSaneInternal_true nodeID Q known known' :
  isQuorumSetSaneInternal nodeID Q known = (true, known') ↔
  everyNode thresholdInRange Q = true
  ∧ NoDup (forAllNodesInternal Q)
  ∧ (∀ x, x ∈ forAllNodesInternal Q → x ∉ known)
  ∧ known' = list_to_set (forAllNodesInternal Q) ∪ known.
Proof.
  revert known known'.
  induction Q as [t vs qs IH] using SCPQuorumSet_nested_ind.
  intros known known'.
  pose proof (saneInner_true (isQuorumSetSaneInternal nodeID)
                (λ q, everyNode thresholdInRange q = true) qs IH) as Hinner.
  rewrite everyNode_unfold.
  change (isQuorumSetSaneInternal nodeID (mkQSet t vs qs) known) with
    (if (1 <=? t) && (t <=? vsize vs + vsize qs) then
       match insertValidators vs known with
       | (false, knownNodes) => (false, knownNodes)
       | (true, knownNodes) =>
           saneInner (isQuorumSetSaneInternal nodeID) qs knownNodes
       end
     else (false, known)).
  change (thresholdInRange (mkQSet t vs qs))
    with ((1 <=? t) && (t <=? vsize vs + vsize qs)).
  change (forAllNodesInternal (mkQSet t vs qs))
    with (vs ++ concat (List.map forAllNodesInternal qs)).
  destruct ((1 <=? t) && (t <=? vsize vs + vsize qs));
    [|split; [done | by intros [[? _] _]]].
  rewrite NoDup_app, list_to_set_app_L.
  destruct (insertValidators vs known) as [[] known1] eqn:Hins.
  - apply insertValidators_true in Hins as (Hnd & Hfresh & ->).
    rewrite Hinner. split.
    + intros (HR & Hnds & Hfreshs & ->).
      split_and!; [done.. | set_solver | done | set_solver | set_solver].
    + intros ([_ HR] & (_ & Hdisj & Hnds) & Hfreshs & ->).
      split_and!; [done.. | | set_solver].
      intros x Hx. pose proof (Hfreshs x). pose proof (Hdisj x).
      set_solver.
  - split; [done|].
    intros (_ & (Hnd & _) & Hfresh & _).
    assert (insertValidators vs known = (true, list_to_set vs ∪ known))
      as Heq.
    { apply insertValidators_true. split_and!; [done | | done].
      intros x Hx. apply Hfresh, elem_of_app. by left. }
    congruence.
Qed.

Lemma someNode_not_everyNode Q :
  someNode thresholdOutOfRange Q = true →
  everyNode thresholdInRange Q = false.
Proof.
  induction Q as [t vs qs IH] using SCPQuorumSet_nested_ind.
  simpl. rewrite orb_true_iff, andb_false_iff. intros [Hbad|Hbad].
  - left. unfold thresholdOutOfRange, thresholdInRange in *. simpl in *.
    apply orb_true_iff in Hbad. apply andb_false_iff.
    rewrite Z.eqb_eq, Z.ltb_lt in Hbad. rewrite !Z.leb_gt. lia.
  - right. apply existsb_exists in Hbad as (q & Hin & Hq).
    apply not_true_is_false. intros Hall.
    rewrite forallb_forall in Hall. specialize (Hall q Hin).
    rewrite Forall_forall in IH.
    apply list_elem_of_In in Hin. rewrite (IH q Hin Hq) in Hall. done.
Qed.

Section SanityProperties.
Context {SecretKey Hash SCPHandle : Type}.
Implicit Types this : @LocalNode SecretKey Hash SCPHandle.

Lemma isQuorumSetSane_true this nodeID Q :
  isQuorumSetSane this nodeID Q = true ↔
  wellFormed Q
  ∧ (nodeID ∈ forAllNodesInternal Q
     ∨ (mIsValidator this = false ∧ nodeID = mNodeID this)).
Proof.
  unfold isQuorumSetSane, wellFormed.
  destruct (isQuorumSetSaneInternal nodeID Q ∅) as [[] known] eqn:Hint.
  - apply isQuorumSetSaneInternal_true in Hint as (HR & Hnd & _ & ->).
    rewrite andb_true_l, orb_true_iff, andb_true_iff, negb_true_iff,
      !bool_decide_eq_true, elem_of_union, elem_of_list_to_set.
    set_solver.
  - rewrite andb_false_l. split; [done|]. intros [[HR Hnd] _].
    assert (isQuorumSetSaneInternal nodeID Q ∅
            = (true, list_to_set (forAllNodesInternal Q) ∪ ∅)) as Heq.
    { apply isQuorumSetSaneInternal_true. split_and!; [done.. | | done].
      set_solver. }
    congruence.
Qed.

(** C5. A quorum set in which some node of the tree has threshold 0 or a
    threshold above its number of direct entries, or in which the same
    [NodeID] is a validator at two different positions of the tree, is
    rejected by [isQuorumSetSane]. *)
Theorem isQuorumSetSane_rejects_malformed this
    (nodeID : NodeID) (Q : SCPQuorumSet) :
  someNode thresholdOutOfRange Q = true
  ∨ (∃ (i j : nat) (n : NodeID),
       i ≠ j ∧ forAllNodesInternal Q !! i = Some n
       ∧ forAllNodesInternal Q !! j = Some n) →
  isQuorumSetSane this nodeID Q = false.
Proof.
  intros Hbad. apply not_true_is_false.
  intros [[HR Hnd] _]%isQuorumSetSane_true.
  destruct Hbad as [Hbad|(i & j & n & Hij & Hi & Hj)].
  - apply someNode_not_everyNode in Hbad. congruence.
  - apply Hij. by eapply NoDup_lookup.
Qed.

(** C6. For a well-formed quorum set [Q]: if [nodeID] is not among its
    validators at any depth, [isQuorumSetSane nodeID Q] is true iff the
    local node is not a validator and [nodeID] is its own ID, so that a
    validating node's quorum set without its own ID is rejected; and if
    [nodeID] is among the validators, [Q] is accepted. *)
Theorem isQuorumSetSane_self_inclusion this
    (nodeID : NodeID) (Q : SCPQuorumSet) :
  wellFormed Q →
  (nodeID ∉ forAllNodesInternal Q →
     (isQuorumSetSane this nodeID Q = true ↔
      mIsValidator this = false ∧ nodeID = mNodeID this)
     ∧ (mIsValidator this = true → isQuorumSetSane this nodeID Q = false))
  ∧ (nodeID ∈ forAllNodesInternal Q → isQuorumSetSane this nodeID Q = true).
Proof.
  intros Hwf. split.
  - intros Hout. split.
    + rewrite isQuorumSetSane_true. naive_solver.
    + intros Hval. apply not_true_is_false.
      rewrite isQuorumSetSane_true. intros [_ [?|[? _]]]; [done | congruence].
  - intros Hin. apply isQuorumSetSane_true. auto.
Qed.

End SanityProperties.

(** ** C7, C8: canonicalisation *)

Lemma adjustQSetHelper_eq self t v i :
  adjustQSetHelper self (mkQSet t v i) =
    let '(i, t) :=
      eraseLoop (adjustQSetHelper self) (λ it, threshold it =? 0) i t in
    let '(v, t) := eraseLoop id (λ itv, bool_decide (itv = self)) v t in
    if (t =? 1) && (vsize v =? 0) && (vsize i =? 1)
    then List.last i (mkQSet t v i)
    else mkQSet t v i.
Proof. reflexivity. Qed.

(** What the erase loop keeps: the visited elements not found redundant,
    in their order. *)
Lemma eraseLoop_kept {A} (visit : A → A) redundant xs t :
  (eraseLoop visit redundant xs t).1 =
    List.filter (λ x, negb (redundant x)) (List.map visit xs).
Proof.
  revert t. induction xs as [|x xs IH]; intros t; simpl; [done|].
  destruct (redundant (visit x)); simpl; [apply IH|].
  specialize (IH t). destruct (eraseLoop visit redundant xs t).
  simpl in *. by f_equal.
Qed.

(** The erase loop leaves a vector alone that has nothing to erase and
    whose elements the visit does not change. *)
Lemma eraseLoop_fixed {A} (visit : A → A) redundant xs t :
  Forall (λ x, visit x = x ∧ redundant x = false) xs →
  eraseLoop visit redundant xs t = (xs, t).
Proof.
  induction 1 as [|x xs [Hv Hr] _ IH]; simpl; [done|].
  by rewrite Hv, Hr, IH.
Qed.

Lemma adjustQSetHelper_adjusted self Q :
  everyNode (adjustedNode self) (adjustQSetHelper self Q) = true.
Proof.
  induction Q as [t vs qs IH] using SCPQuorumSet_nested_ind.
  rewrite adjustQSetHelper_eq.
  pose proof (eraseLoop_kept (adjustQSetHelper self)
                (λ it, threshold it =? 0) qs t) as Hi.
  destruct (eraseLoop (adjustQSetHelper self) _ qs t) as [i t1].
  pose proof (eraseLoop_kept id (λ itv, bool_decide (itv = self)) vs t1)
    as Hv.
  destruct (eraseLoop id _ vs t1) as [v t2]. simpl in Hi, Hv.
  assert (Forall (λ q, everyNode (adjustedNode self) q = true) i) as Hall.
  { subst i. apply Forall_forall. intros q Hq.
    apply list_elem_of_In, filter_In in Hq as [Hq _].
    apply in_map_iff in Hq as (q' & <- & Hq').
    rewrite Forall_forall in IH. by apply IH, list_elem_of_In. }
  destruct ((t2 =? 1) && (vsize v =? 0) && (vsize i =? 1)) eqn:Hwrap.
  - apply andb_true_iff in Hwrap as [_ Hone%Z.eqb_eq].
    destruct i as [|q [|q' i]];
      [done | | rewrite !vsize_cons in Hone; pose proof (vsize_nonneg i); lia].
    simpl. by apply Forall_cons in Hall as [? _].
  - apply everyNode_unfold. split; [|done].
    unfold adjustedNode. simpl. rewrite Hwrap.
    rewrite !andb_true_iff. split_and!; [| |done].
    + subst i. apply forallb_forall. intros q Hq.
      by apply filter_In in Hq as [_ Hq].
    + subst v. apply forallb_forall. intros n Hn.
      by apply filter_In in Hn as [_ Hn].
Qed.

Lemma adjustQSetHelper_fixed self Q :
  everyNode (adjustedNode self) Q = true → adjustQSetHelper self Q = Q.
Proof.
  induction Q as [t vs qs IH] using SCPQuorumSet_nested_ind.
  intros [Hnode Hqs]%everyNode_unfold.
  unfold adjustedNode in Hnode. simpl in Hnode.
  rewrite !andb_true_iff, negb_true_iff in Hnode.
  destruct Hnode as [[Hthr Hself] Hwrap].
  rewrite adjustQSetHelper_eq.
  rewrite (eraseLoop_fixed (adjustQSetHelper self)).
  2:{ apply Forall_forall. intros q Hq.
      rewrite Forall_forall in IH, Hqs. split; [by auto|].
      rewrite forallb_forall in Hthr.
      by apply negb_true_iff, Hthr, list_elem_of_In. }
  rewrite (eraseLoop_fixed id).
  2:{ apply Forall_forall. intros n Hn. split; [done|].
      rewrite forallb_forall in Hself.
      by apply negb_true_iff, Hself, list_elem_of_In. }
  by rewrite Hwrap.
Qed.

Lemma adjusted_without_self self Q :
  everyNode (adjustedNode self) Q = true → self ∉ forAllNodesInternal Q.
Proof.
  induction Q as [t vs qs IH] using SCPQuorumSet_nested_ind.
  intros [Hnode Hqs]%everyNode_unfold.
  unfold adjustedNode in Hnode. simpl in Hnode.
  rewrite !andb_true_iff in Hnode. destruct Hnode as [[_ Hself] _].
  rewrite elem_of_forAllNodesInternal. intros [Hv|(q & Hq & Hin)].
  - rewrite forallb_forall in Hself.
    apply list_elem_of_In, Hself, negb_true_iff in Hv.
    by apply bool_decide_eq_false in Hv.
  - rewrite Forall_forall in IH, Hqs. by apply (IH q Hq); auto.
Qed.

Lemma adjustQSet_cases self Q :
  (threshold (adjustQSetHelper self Q) = 0
   ∧ adjustQSet self Q = mkQSet 1 [self] [])
  ∨ (threshold (adjustQSetHelper self Q) ≠ 0
     ∧ adjustQSet self Q = mkQSet 2 [self] [adjustQSetHelper self Q]).
Proof.
  unfold adjustQSet.
  destruct (Z.eqb_spec (threshold (adjustQSetHelper self Q)) 0); simpl;
    [by left | by right].
Qed.

(** C8. Canonicalisation is idempotent: [adjustQSet] applied to its own
    output gives that output back. *)
Theorem adjustQSet_idempotent (self : NodeID) (Q : SCPQuorumSet) :
  adjustQSet self (adjustQSet self Q) = adjustQSet self Q.
Proof.
  pose proof (adjustQSetHelper_adjusted self Q) as Hadj.
  destruct (adjustQSet_cases self Q) as [[Hz ->]|[Hnz ->]];
    unfold adjustQSet; rewrite adjustQSetHelper_eq; simpl.
  - by rewrite bool_decide_eq_true_2.
  - set (aQSet := adjustQSetHelper self Q) in *.
    rewrite (adjustQSetHelper_fixed self aQSet) by done.
    destruct (Z.eqb_spec (threshold aQSet) 0); [done|]. simpl.
    rewrite bool_decide_eq_true_2 by done. simpl.
    by destruct (Z.eqb_spec (threshold aQSet) 0).
Qed.

(** ** C9: node weights *)

Lemma getNodeWeight_eq nodeID t vs qs :
  getNodeWeight nodeID (mkQSet t vs qs) =
    if existsb (λ qsetNode, bool_decide (qsetNode = nodeID)) vs
    then bigDivide UINT64_MAX t (vsize qs + vsize vs)
    else weightInner (getNodeWeight nodeID) t (vsize qs + vsize vs) qs.
Proof. reflexivity. Qed.

Lemma weightInner_zero weight n d qs :
  Forall (λ q, weight q = 0) qs → weightInner weight n d qs = 0.
Proof. induction 1 as [|q qs Hq _ IH]; simpl; [done|]. by rewrite Hq. Qed.

Lemma getNodeWeight_absent target tree :
  target ∉ forAllNodesInternal tree → getNodeWeight target tree = 0.
Proof.
  induction tree as [t vs qs IH] using SCPQuorumSet_nested_ind.
  rewrite elem_of_forAllNodesInternal, getNodeWeight_eq. intros Hout.
  destruct (existsb _ vs) eqn:Hex.
  - apply existsb_exists in Hex as (v & Hv & Heq).
    apply bool_decide_eq_true in Heq as ->.
    destruct Hout. left. by apply list_elem_of_In.
  - apply weightInner_zero. rewrite Forall_forall in *.
    intros q Hq. apply IH; [done|]. intros Hin. apply Hout. eauto.
Qed.

(** C9. In [{threshold=1, validators=[A,B]}] with [A] and [B] distinct,
    [A] and [B] both weigh [UINT64_MAX/2], the integer quotient of
    [threshold * UINT64_MAX] by the number of entries; and a node that
    appears nowhere in a tree weighs 0 in it. *)
Theorem getNodeWeight_normalised (A B target : NodeID)
    (tree : SCPQuorumSet) :
  A ≠ B →
  target ∉ forAllNodesInternal tree →
  getNodeWeight A (mkQSet 1 [A; B] []) = UINT64_MAX / 2
  ∧ getNodeWeight B (mkQSet 1 [A; B] []) = UINT64_MAX / 2
  ∧ UINT64_MAX / 2 = 1 * UINT64_MAX / totEntries (mkQSet 1 [A; B] [])
  ∧ getNodeWeight target tree = 0.
Proof.
  intros HAB Hout. split_and!.
  - rewrite getNodeWeight_eq. simpl existsb.
    by rewrite (bool_decide_eq_true_2 (A = A)).
  - rewrite getNodeWeight_eq. simpl existsb.
    rewrite (bool_decide_eq_true_2 (B = B)) by done.
    by rewrite orb_true_r.
  - done.
  - by apply getNodeWeight_absent.
Qed.

(** ** C10: replacing the quorum set *)

Section UpdateProperties.
Context {SecretKey Hash SCPHandle : Type}.
Context (getPublicKey : SecretKey → NodeID).
Context (xdr_to_opaque : SCPQuorumSet → list Byte.byte).
Context (sha256 : list Byte.byte → Hash).
Implicit Types this : @LocalNode SecretKey Hash SCPHandle.

(** C10. [updateQuorumSet] stores the quorum set it is given as it is,
    whereas the constructor stores the canonicalised one; it sets the hash
    to the hash of the serialisation of the new set and changes no other
    field. [getQuorumSet] and [getQuorumSetHash] return the stored set and
    hash. *)
Theorem updateQuorumSet_frame this (newQset : SCPQuorumSet) :
  let this' := updateQuorumSet xdr_to_opaque sha256 this newQset in
  getQuorumSet this' = newQset
  ∧ getQuorumSetHash this' = sha256 (xdr_to_opaque newQset)
  ∧ mQSet this' = newQset
  ∧ mQSetHash this' = sha256 (xdr_to_opaque newQset)
  ∧ mNodeID this' = mNodeID this
  ∧ mIsValidator this' = mIsValidator this
  ∧ mSecretKey this' = mSecretKey this
  ∧ mSingleQSet this' = mSingleQSet this
  ∧ gSingleQSetHash this' = gSingleQSetHash this
  ∧ mSCP this' = mSCP this
  ∧ (∀ secretKey isValidator (scp : SCPHandle),
       getQuorumSet
         (newLocalNode getPublicKey xdr_to_opaque sha256
            secretKey isValidator newQset scp)
       = adjustQSet (getPublicKey secretKey) newQset).
Proof. by repeat split. Qed.
End UpdateProperties.

(** ** C4: the filtering loop of [isQuorum] *)

Lemma quorumLoop_rounds map qfun pNodes :
  (1 ≤ (quorumLoop map qfun pNodes).2 ≤ length pNodes + 1)%nat.
Proof.
  funelim (quorumLoop map qfun pNodes).
  - simpl. lia.
  - pose proof (List.filter_length_le (quorumFilter map qfun pNodes) pNodes)
      as Hle.
    unfold filterRound in *.
    destruct (quorumLoop map qfun _) as [fNodes rounds]. simpl in *. lia.
Qed.

Lemma relevantNodes_length (map : gmap NodeID SCPEnvelope) filter :
  (length (relevantNodes map filter) ≤ size map)%nat.
Proof.
  unfold relevantNodes. rewrite length_fmap, <- length_map_to_list.
  apply List.filter_length_le.
Qed.

(** C4 (amended). The filtering loop of [isQuorum] terminates: a round
    never grows the candidate pool, and the body runs at most
    [|pNodes| + 1] times, hence at most [|map| + 1] times, where [pNodes]
    are the nodes whose statement passes the relevance predicate. *)
Theorem isQuorum_rounds_bound (map : gmap NodeID SCPEnvelope)
    (qfun : SCPStatement → SCPQuorumSet) (filter : SCPStatement → bool) :
  (∀ pNodes,
     (length (filterRound map qfun pNodes) ≤ length pNodes)%nat)
  ∧ (1 ≤ isQuorum_rounds map qfun filter)%nat
  ∧ (isQuorum_rounds map qfun filter
     ≤ length (relevantNodes map filter) + 1)%nat
  ∧ (isQuorum_rounds map qfun filter ≤ size map + 1)%nat.
Proof.
  pose proof (quorumLoop_rounds map qfun (relevantNodes map filter)).
  pose proof (relevantNodes_length map filter).
  unfold isQuorum_rounds. split_and!; try lia.
  intros pNodes. apply List.filter_length_le.
Qed.

(** ** C3: the closest v-blocking set *)

Section HitsMore.
Context {A : Type}.
Implicit Types (f p : A → bool) (xs : list A).

Lemma hits_all f xs :
  Forall (λ x, f x = true) xs → hits f xs = vsize xs.
Proof.
  induction 1 as [|x xs Hx _ IH]; [done|].
  rewrite hits_cons, vsize_cons, Hx, IH. done.
Qed.

Lemma hits_take f k xs : hits f (take k xs) ≤ hits f xs.
Proof.
  revert k. induction xs as [|x xs IH]; intros [|k]; simpl;
    rewrite ?hits_nil, ?hits_cons; try done.
  - pose proof (hits_bounds f xs). destruct (f x); lia.
  - specialize (IH k). lia.
Qed.

Lemma hits_Permutation f xs ys : xs ≡ₚ ys → hits f xs = hits f ys.
Proof.
  induction 1; rewrite ?hits_cons; try done; try lia; congruence.
Qed.

Lemma hits_split f p xs :
  hits f xs = hits f (List.filter p xs)
              + hits f (List.filter (λ x, negb (p x)) xs).
Proof.
  induction xs as [|x xs IH]; [done|]. simpl.
  destruct (p x); simpl; rewrite !hits_cons; lia.
Qed.

Lemma hits_map {B} (g : B → A) f (ys : list B) :
  hits f (List.map g ys) = hits (λ y, f (g y)) ys.
Proof.
  induction ys as [|y ys IH]; [done|]. simpl.
  by rewrite !hits_cons, IH.
Qed.
End HitsMore.

Lemma emplaceBySize_Permutation v resInternals :
  emplaceBySize v resInternals ≡ₚ v :: resInternals.
Proof.
  induction resInternals as [|w rest IH]; simpl; [done|].
  destruct (_ <? _)%nat; [done|]. rewrite IH. apply Permutation_swap.
Qed.

Lemma closestValidators_exact nodes vs leftTillBlock res :
  1 ≤ leftTillBlock ≤ UINT64_MAX →
  closestValidators nodes vs leftTillBlock res =
    let absent := hits (λ v, negb (bool_decide (v ∈ nodes))) vs in
    if leftTillBlock <=? absent then None
    else Some (leftTillBlock - absent,
               res ++ List.filter (λ v, bool_decide (v ∈ nodes)) vs).
Proof.
  revert leftTillBlock res.
  induction vs as [|v vs IH]; intros left res Hleft; simpl.
  - rewrite hits_nil. destruct (Z.leb_spec left 0); [lia|].
    by rewrite app_nil_r, Z.sub_0_r.
  - rewrite hits_cons.
    pose proof (hits_bounds (λ v, negb (bool_decide (v ∈ nodes))) vs) as Hb.
    specialize (IH (if bool_decide (v ∈ nodes) then left else left - 1)).
    simpl in IH.
    set (absent := hits (λ v, negb (bool_decide (v ∈ nodes))) vs) in *.
    destruct (bool_decide (v ∈ nodes)); simpl.
    + rewrite IH by done. by rewrite <- app_assoc.
    + rewrite dec_size_exact by done.
      destruct (Z.eqb_spec (left - 1) 0).
      * destruct (Z.leb_spec left (1 + absent)); [done | lia].
      * rewrite IH by lia.
        destruct (Z.leb_spec (left - 1) absent),
                 (Z.leb_spec left (1 + absent)); try lia; try done.
        do 2 f_equal. lia.
Qed.

Lemma closestInner_exact closest qs leftTillBlock resInternals :
  1 ≤ leftTillBlock ≤ UINT64_MAX →
  let blocked := hits (λ q, vsize (closest q) =? 0) qs in
  (leftTillBlock ≤ blocked
   ∧ closestInner closest qs leftTillBlock resInternals = None)
  ∨ (blocked < leftTillBlock
     ∧ ∃ sorted,
         closestInner closest qs leftTillBlock resInternals
         = Some (leftTillBlock - blocked, sorted)
         ∧ sorted ≡ₚ
             resInternals
             ++ List.map closest
                  (List.filter (λ q, negb (vsize (closest q) =? 0)) qs)).
Proof.
  revert leftTillBlock resInternals.
  induction qs as [|q qs IH]; intros left ri Hleft; simpl.
  - rewrite hits_nil. right. split; [lia|]. exists ri.
    by rewrite Z.sub_0_r, app_nil_r.
  - rewrite hits_cons.
    pose proof (hits_bounds (λ q, vsize (closest q) =? 0) qs) as Hb.
    destruct (vsize (closest q) =? 0); simpl.
    + rewrite dec_size_exact by done.
      destruct (Z.eqb_spec (left - 1) 0).
      * left. split; [lia | done].
      * destruct (IH (left - 1) ri) as [[Hle ->]|(Hlt & sorted & -> & Hp)];
          [lia | left; split; [lia | done] |].
        right. split; [lia|]. exists sorted. split; [|done].
        do 2 f_equal. lia.
    + destruct (IH left (emplaceBySize (closest q) ri))
        as [[Hle ->]|(Hlt & sorted & -> & Hp)];
        [done | left; split; [lia | done] |].
      right. split; [lia|]. exists sorted. split; [done|].
      rewrite Hp, emplaceBySize_Permutation. simpl.
      by rewrite Permutation_middle.
Qed.

Lemma consumeInternals_exact resInternals leftTillBlock res :
  0 ≤ leftTillBlock ≤ UINT64_MAX →
  consumeInternals resInternals leftTillBlock res =
    res ++ concat (take (Z.to_nat leftTillBlock) resInternals).
Proof.
  revert leftTillBlock res.
  induction resInternals as [|it rest IH]; intros left res Hleft; simpl.
  - by rewrite take_nil, app_nil_r.
  - destruct (Z.eqb_spec left 0) as [->|Hnz]; [by rewrite app_nil_r|].
    rewrite dec_size_exact by lia. rewrite IH by lia.
    replace (Z.to_nat left) with (S (Z.to_nat (left - 1))) by lia.
    simpl. by rewrite <- app_assoc.
Qed.

Lemma findClosestVBlocking_eq t vs qs nodes :
  findClosestVBlocking (mkQSet t vs qs) nodes =
    match closestValidators nodes vs
            (wrap_uint64 ((1 + vsize vs + vsize qs) - t)) [] with
    | None => []
    | Some (leftTillBlock, res) =>
        match closestInner (λ inner, findClosestVBlocking inner nodes)
                qs leftTillBlock [] with
        | None => []
        | Some (leftTillBlock, resInternals) =>
            let res :=
              if vsize res >? leftTillBlock
              then take (Z.to_nat leftTillBlock) res
              else res in
            let leftTillBlock := wrap_uint64 (leftTillBlock - vsize res) in
            consumeInternals resInternals leftTillBlock res
        end
    end.
Proof. reflexivity. Qed.

(** The result at a node whose threshold is in range: nothing if the
    validators outside [nodes] and the inner sets with an empty result
    already block it, and otherwise the first validators in [nodes]
    followed by the smallest results of the inner sets, as many as are
    still needed. *)
Lemma findClosestVBlocking_node t vs qs nodes :
  1 ≤ t ≤ vsize vs + vsize qs → vsize vs + vsize qs ≤ INT_MAX →
  let closest := λ inner, findClosestVBlocking inner nodes in
  let absent := hits (λ v, negb (bool_decide (v ∈ nodes))) vs in
  let blocked := hits (λ q, vsize (closest q) =? 0) qs in
  let present := List.filter (λ v, bool_decide (v ∈ nodes)) vs in
  let L := (1 + vsize vs + vsize qs) - t - absent - blocked in
  (L ≤ 0 ∧ findClosestVBlocking (mkQSet t vs qs) nodes = [])
  ∨ (0 < L
     ∧ ∃ sorted,
         sorted ≡ₚ
           List.map closest
             (List.filter (λ q, negb (vsize (closest q) =? 0)) qs)
         ∧ findClosestVBlocking (mkQSet t vs qs) nodes =
             take (Z.to_nat L) present
             ++ concat (take (Z.to_nat L - length (take (Z.to_nat L) present))
                          sorted)).
Proof.
  intros Ht Hn closest absent blocked present L.
  pose proof (hits_bounds (λ v, negb (bool_decide (v ∈ nodes))) vs) as Ha.
  pose proof (hits_bounds (λ q, vsize (closest q) =? 0) qs) as Hb.
  fold absent in Ha. fold blocked in Hb.
  rewrite findClosestVBlocking_eq. fold closest.
  assert (wrap_uint64 (1 + vsize vs + vsize qs - t)
          = 1 + vsize vs + vsize qs - t) as ->.
  { apply Z.mod_small. unfold INT_MAX in Hn. lia. }
  rewrite closestValidators_exact by (unfold UINT64_MAX, INT_MAX in *; lia).
  cbv zeta. fold absent. rewrite app_nil_l. fold present.
  destruct (Z.leb_spec (1 + vsize vs + vsize qs - t) absent);
    [left; split; [lia | done]|].
  destruct (closestInner_exact closest qs
              (1 + vsize vs + vsize qs - t - absent) [])
    as [[Hle ->]|(Hlt & sorted & -> & Hp)];
    [unfold UINT64_MAX, INT_MAX in *; lia | left; split; [lia | done] |].
  fold blocked in Hlt |- *. fold L in Hlt |- *.
  right. split; [lia|]. exists sorted. split; [done|].
  assert ((if vsize present >? L then take (Z.to_nat L) present else present)
          = take (Z.to_nat L) present) as ->.
  { destruct (Z.gtb_spec (vsize present) L); [done|].
    rewrite take_ge; [done|]. unfold vsize in *. lia. }
  assert (0 ≤ vsize (take (Z.to_nat L) present) ≤ L) as Htake.
  { unfold vsize. rewrite length_take. lia. }
  assert (wrap_uint64 (L - vsize (take (Z.to_nat L) present))
          = L - vsize (take (Z.to_nat L) present)) as ->.
  { apply Z.mod_small. unfold INT_MAX in Hn. subst L. lia. }
  rewrite consumeInternals_exact
    by (unfold UINT64_MAX, INT_MAX in *; subst L; lia).
  do 3 f_equal. unfold vsize. lia.
Qed.

Lemma findClosestVBlocking_subset Q nodes n :
  everyNode thresholdInRange Q = true →
  everyNode entriesFitInt Q = true →
  n ∈ findClosestVBlocking Q nodes → n ∈ nodes.
Proof.
  induction Q as [t vs qs IH] using SCPQuorumSet_nested_ind.
  intros [HR HRq]%everyNode_unfold [HF HFq]%everyNode_unfold.
  destruct (thresholdInRange_fits _ _ _ HR HF) as [Ht Hn].
  destruct (findClosestVBlocking_node t vs qs nodes Ht Hn)
    as [[_ ->]|(_ & sorted & Hp & ->)]; [by intros ?%elem_of_nil|].
  rewrite elem_of_app. intros [Hv|Hq].
  - apply elem_of_take in Hv as (i & Hv & _).
    apply list_elem_of_lookup_2, list_elem_of_In, filter_In in Hv as [_ Hv].
    by apply bool_decide_eq_true in Hv.
  - apply list_elem_of_In, in_concat in Hq as (w & Hw & Hnw).
    apply list_elem_of_In, elem_of_take in Hw as (i & Hw & _).
    apply list_elem_of_lookup_2 in Hw. rewrite Hp in Hw.
    apply list_elem_of_In, in_map_iff in Hw as (q & <- & Hq).
    apply filter_In in Hq as [Hq _]. apply list_elem_of_In in Hq.
    rewrite Forall_forall in IH, HRq, HFq.
    apply (IH q); auto. by apply list_elem_of_In.
Qed.

Lemma findClosestVBlocking_blocks Q nodes S :
  everyNode thresholdInRange Q = true →
  everyNode entriesFitInt Q = true →
  (∀ n, n ∈ findClosestVBlocking Q nodes → n ∈ S) →
  (∀ n, n ∈ forAllNodesInternal Q → n ∉ nodes → n ∈ S) →
  isVBlockingInternal Q S = true.
Proof.
  induction Q as [t vs qs IH] using SCPQuorumSet_nested_ind.
  intros [HR HRq]%everyNode_unfold [HF HFq]%everyNode_unfold Hres Hout.
  destruct (thresholdInRange_fits _ _ _ HR HF) as [Ht Hn].
  rewrite isVBlockingInternal_count by done. apply Z.leb_le.
  rewrite Forall_forall in IH, HRq, HFq.
  set (closest := λ inner, findClosestVBlocking inner nodes).
  set (empty := λ q, vsize (closest q) =? 0).
  set (inNodes := λ v : NodeID, bool_decide (v ∈ nodes)).
  set (blockedBy := λ inner, isVBlockingInternal inner S).
  (* the validators outside [nodes] all count *)
  assert (hits (found S) vs
          = hits (found S) (List.filter inNodes vs)
            + hits (λ v, negb (inNodes v)) vs) as HV.
  { rewrite (hits_split (found S) inNodes vs). f_equal.
    apply hits_all, Forall_forall. intros v Hv.
    apply list_elem_of_In, filter_In in Hv as [Hv Hnot].
    apply negb_true_iff, bool_decide_eq_false in Hnot.
    apply bool_decide_eq_true, Hout; [|done].
    by apply elem_of_forAllNodesInternal_validator, list_elem_of_In. }
  (* so do the inner sets with an empty result *)
  assert (hits blockedBy qs
          = hits empty qs
            + hits blockedBy (List.filter (λ q, negb (empty q)) qs)) as HQ.
  { rewrite (hits_split blockedBy empty qs). f_equal.
    apply hits_all, Forall_forall. intros q Hq.
    apply list_elem_of_In, filter_In in Hq as [Hq Hempty].
    apply list_elem_of_In in Hq.
    apply IH; auto.
    - intros n Hin. apply Z.eqb_eq in Hempty. unfold vsize in Hempty.
      fold (closest q) in Hin. destruct (closest q); [|done].
      by apply elem_of_nil in Hin.
    - intros n Hin. apply Hout.
      by apply (elem_of_forAllNodesInternal_inner t vs qs q). }
  pose proof (hits_bounds (found S) (List.filter inNodes vs)) as HbV.
  pose proof (hits_bounds blockedBy (List.filter (λ q, negb (empty q)) qs))
    as HbQ.
  pose proof (hits_bounds (λ v, negb (inNodes v)) vs) as Ha.
  pose proof (hits_bounds empty qs) as Hb.
  pose proof (findClosestVBlocking_node t vs qs nodes Ht Hn) as Hnode.
  cbv zeta in Hnode.
  change (λ inner, findClosestVBlocking inner nodes) with closest in Hnode.
  change (λ q, vsize (closest q) =? 0) with empty in Hnode.
  change (λ v, bool_decide (v ∈ nodes)) with inNodes in Hnode.
  change (λ v, negb (bool_decide (v ∈ nodes)))
    with (λ v, negb (inNodes v)) in Hnode.
  destruct Hnode as [[HL _]|(HL & sorted & Hp & Heq)]; [lia|].
  rewrite Heq in Hres. clear Heq.
  set (L := 1 + vsize vs + vsize qs - t
            - hits (λ v, negb (inNodes v)) vs - hits empty qs) in *.
  set (present := List.filter inNodes vs) in *.
  set (chosen := take (Z.to_nat L - length (take (Z.to_nat L) present))
                   sorted) in *.
  (* the validators kept in the result count *)
  assert (vsize (take (Z.to_nat L) present) ≤ hits (found S) present) as HV'.
  { rewrite <- (hits_all (found S) (take (Z.to_nat L) present)).
    - apply hits_take.
    - apply Forall_forall. intros v Hv.
      apply bool_decide_eq_true, Hres, elem_of_app. by left. }
  (* and so do the inner sets whose result was consumed *)
  assert (vsize chosen
          ≤ hits blockedBy (List.filter (λ q, negb (empty q)) qs)) as HQ'.
  { rewrite <- (hits_all (λ w, bool_decide (w ∈ chosen)) chosen)
      by (apply Forall_forall; intros w Hw; by apply bool_decide_eq_true).
    etrans; [apply hits_take|].
    rewrite (hits_Permutation _ _ _ Hp), hits_map.
    apply hits_mono, Forall_forall. intros q Hq Hchosen.
    apply list_elem_of_In, filter_In in Hq as [Hq _].
    apply list_elem_of_In in Hq. apply bool_decide_eq_true in Hchosen.
    apply IH; auto.
    - intros n Hin. apply Hres, elem_of_app. right.
      apply list_elem_of_In, in_concat. exists (closest q).
      by rewrite <- !list_elem_of_In.
    - intros n Hin. apply Hout.
      by apply (elem_of_forAllNodesInternal_inner t vs qs q). }
  assert (vsize present = vsize vs - hits (λ v, negb (inNodes v)) vs) as Hp1.
  { rewrite hits_negb. unfold present, hits. lia. }
  assert (vsize sorted = vsize qs - hits empty qs) as Hp2.
  { unfold vsize at 1. rewrite Hp, length_map.
    pose proof (hits_negb empty qs) as Hneg. unfold hits at 1 in Hneg.
    unfold vsize at 1 in Hneg. exact Hneg. }
  unfold chosen, vsize in HQ', HV', Hp1, Hp2.
  rewrite !length_take in *. unfold vsize in *. lia.
Qed.

(** C3 (amended). For a well-formed quorum set [Q] (each node's entry
    count within [int]) and a candidate set [C], if
    [findClosestVBlocking Q C] returns a non-empty result [R], then every
    member of [R] belongs to [C], and [R] blocks [Q] together with the
    validators of [Q] outside [C]: [isVBlocking Q S] is true of every node
    set [S] that contains [R] and those validators. *)
Theorem findClosestVBlocking_sound (Q : SCPQuorumSet) (C : gset NodeID) :
  wellFormed Q →
  everyNode entriesFitInt Q = true →
  findClosestVBlocking Q C ≠ [] →
  (∀ n, n ∈ findClosestVBlocking Q C → n ∈ C)
  ∧ (∀ S : list NodeID,
       (∀ n, n ∈ findClosestVBlocking Q C → n ∈ S) →
       (∀ n, n ∈ forAllNodesInternal Q → n ∉ C → n ∈ S) →
       isVBlocking Q S = true).
Proof.
  intros [HR _] HF _. split.
  - intros n. by apply findClosestVBlocking_subset.
  - intros S. by apply findClosestVBlocking_blocks.
Qed.

(** * Further properties of the code *)

(** ** The counting loops on arbitrary counters *)

Lemma countDown_ext {A} (dec : Z → Z) (f g : A → bool) xs left :
  Forall (λ x, f x = g x) xs →
  countDown dec f xs left = countDown dec g xs left.
Proof.
  intros Hfg. revert left.
  induction Hfg as [|x xs Hx _ IH]; intros left; simpl; [done|].
  rewrite Hx. destruct (g x); [|apply IH].
  destruct (dec left <=? 0); [done | apply IH].
Qed.

Lemma countDown_no_hit {A} (dec : Z → Z) (f : A → bool) xs left :
  Forall (λ x, f x = false) xs → countDown dec f xs left = FallThrough left.
Proof.
  induction 1 as [|x xs Hx _ IH]; simpl; [done|]. by rewrite Hx.
Qed.

(** ** The node set counts through membership only *)

Lemma isQuorumSliceInternal_ext Q S S' :
  (∀ v, v ∈ forAllNodesInternal Q → v ∈ S ↔ v ∈ S') →
  isQuorumSliceInternal Q S = isQuorumSliceInternal Q S'.
Proof.
  induction Q as [t vs qs IH] using SCPQuorumSet_nested_ind.
  intros Hsame. rewrite !isQuorumSliceInternal_eq.
  rewrite (countDown_ext dec_uint32 (found S) (found S') vs).
  2:{ apply Forall_forall. intros v Hv. apply bool_decide_ext, Hsame.
      by apply elem_of_forAllNodesInternal_validator. }
  destruct (countDown dec_uint32 (found S') vs t) as [|left]; [done|].
  rewrite (countDown_ext dec_uint32 (λ inner, isQuorumSliceInternal inner S)
             (λ inner, isQuorumSliceInternal inner S') qs); [done|].
  rewrite Forall_forall in IH |- *. intros q Hq. apply IH; [done|].
  intros v Hv. apply Hsame.
  by apply (elem_of_forAllNodesInternal_inner t vs qs q).
Qed.

Lemma isVBlockingInternal_ext Q S S' :
  (∀ v, v ∈ forAllNodesInternal Q → v ∈ S ↔ v ∈ S') →
  isVBlockingInternal Q S = isVBlockingInternal Q S'.
Proof.
  induction Q as [t vs qs IH] using SCPQuorumSet_nested_ind.
  intros Hsame. rewrite !isVBlockingInternal_eq.
  destruct (t =? 0); [done|].
  rewrite (countDown_ext dec_int (found S) (found S') vs).
  2:{ apply Forall_forall. intros v Hv. apply bool_decide_ext, Hsame.
      by apply elem_of_forAllNodesInternal_validator. }
  destruct (countDown dec_int (found S') vs _) as [|left]; [done|].
  rewrite (countDown_ext dec_int (λ inner, isVBlockingInternal inner S)
             (λ inner, isVBlockingInternal inner S') qs); [done|].
  rewrite Forall_forall in IH |- *. intros q Hq. apply IH; [done|].
  intros v Hv. apply Hsame.
  by apply (elem_of_forAllNodesInternal_inner t vs qs q).
Qed.

(** X1. [isQuorumSlice] and [isVBlocking] look at the node set through
    membership only, and only for the validators of the tree: two node sets
    that hold the same validators of [Q] give the same answers, whatever
    their order and however often they repeat a node, for any [Q]. *)
Theorem nodeSet_membership_only (Q : SCPQuorumSet) (S S' : list NodeID) :
  (∀ v, v ∈ forAllNodesInternal Q → v ∈ S ↔ v ∈ S') →
  isQuorumSlice Q S = isQuorumSlice Q S'
  ∧ isVBlocking Q S = isVBlocking Q S'.
Proof.
  intros Hsame. split.
  - by apply isQuorumSliceInternal_ext.
  - by apply isVBlockingInternal_ext.
Qed.

(** ** The empty node set *)

Lemma isQuorumSliceInternal_empty Q : isQuorumSliceInternal Q [] = false.
Proof.
  induction Q as [t vs qs IH] using SCPQuorumSet_nested_ind.
  rewrite isQuorumSliceInternal_eq.
  rewrite countDown_no_hit
    by (apply Forall_forall; intros v _; apply found_nil).
  by rewrite countDown_no_hit.
Qed.

Lemma isVBlockingInternal_empty Q : isVBlockingInternal Q [] = false.
Proof.
  induction Q as [t vs qs IH] using SCPQuorumSet_nested_ind.
  rewrite isVBlockingInternal_eq. destruct (t =? 0); [done|].
  rewrite countDown_no_hit
    by (apply Forall_forall; intros v _; apply found_nil).
  by rewrite countDown_no_hit.
Qed.


(** X2. The empty node set is a quorum slice of no quorum set and blocks
    none, whatever the thresholds. *)
Theorem empty_nodeSet_never_counts (Q : SCPQuorumSet) :
  isQuorumSlice Q [] = false ∧ isVBlocking Q [] = false.
Proof.
  split; [apply isQuorumSliceInternal_empty | apply isVBlockingInternal_empty].
Qed.

(** ** Monotonicity *)

Lemma thresholdPositive_bounds t vs qs :
  thresholdPositive (mkQSet t vs qs) = true → 1 ≤ t ≤ UINT32_MAX.
Proof.
  unfold thresholdPositive. simpl. rewrite andb_true_iff, !Z.leb_le. lia.
Qed.

Lemma isQuorumSliceInternal_mono Q S S' :
  everyNode thresholdPositive Q = true →
  (∀ v, v ∈ S → v ∈ S') →
  isQuorumSliceInternal Q S = true → isQuorumSliceInternal Q S' = true.
Proof.
  intros HQ Hsub. induction Q as [t vs qs IH] using SCPQuorumSet_nested_ind.
  apply everyNode_unfold in HQ as [Ht Hqs].
  apply thresholdPositive_bounds in Ht.
  rewrite !isQuorumSliceInternal_count, !Z.leb_le by done. intros Hle.
  assert (hits (found S) vs ≤ hits (found S') vs) as Hv.
  { apply hits_mono, Forall_forall. intros v _. unfold found.
    rewrite !bool_decide_eq_true. apply Hsub. }
  assert (hits (λ inner, isQuorumSliceInternal inner S) qs
          ≤ hits (λ inner, isQuorumSliceInternal inner S') qs) as Hq.
  { apply hits_mono. rewrite Forall_forall in *. auto. }
  lia.
Qed.

(** X3. Adding nodes to a quorum slice leaves a quorum slice, for a quorum
    set whose thresholds are at least 1 at every node. *)
Theorem isQuorumSlice_monotone (Q : SCPQuorumSet) (S S' : list NodeID) :
  everyNode thresholdPositive Q = true →
  (∀ v, v ∈ S → v ∈ S') →
  isQuorumSlice Q S = true → isQuorumSlice Q S' = true.
Proof. apply isQuorumSliceInternal_mono. Qed.

(** X4. Adding nodes to a v-blocking set leaves a v-blocking set, for a
    quorum set whose thresholds are in range at every node (each node's
    entry count within [int]). *)
Theorem isVBlocking_monotone (Q : SCPQuorumSet) (S S' : list NodeID) :
  everyNode thresholdInRange Q = true →
  everyNode entriesFitInt Q = true →
  (∀ v, v ∈ S → v ∈ S') →
  isVBlocking Q S = true → isVBlocking Q S' = true.
Proof.
  unfold isVBlocking.
  intros HR HF Hsub.
  induction Q as [t vs qs IH] using SCPQuorumSet_nested_ind.
  apply everyNode_unfold in HR as [HR HRq], HF as [HF HFq].
  destruct (thresholdInRange_fits _ _ _ HR HF) as [Ht Hn].
  rewrite !isVBlockingInternal_count, !Z.leb_le by done. intros Hle.
  assert (hits (found S) vs ≤ hits (found S') vs) as Hv.
  { apply hits_mono, Forall_forall. intros v _. unfold found.
    rewrite !bool_decide_eq_true. apply Hsub. }
  assert (hits (λ inner, isVBlockingInternal inner S) qs
          ≤ hits (λ inner, isVBlockingInternal inner S') qs) as Hq.
  { apply hits_mono. rewrite Forall_forall in *. auto. }
  lia.
Qed.

(** ** Satisfiable and unsatisfiable thresholds *)

(** X5. A quorum set whose thresholds are in range at every node (each
    node's entry count within [int]) can be satisfied and can be blocked:
    every node set that holds all its validators is a quorum slice of it
    and a v-blocking set for it. *)
Theorem all_validators_slice_and_block (Q : SCPQuorumSet)
    (S : list NodeID) :
  everyNode thresholdInRange Q = true →
  everyNode entriesFitInt Q = true →
  (∀ v, v ∈ forAllNodesInternal Q → v ∈ S) →
  isQuorumSlice Q S = true ∧ isVBlocking Q S = true.
Proof.
  unfold isQuorumSlice, isVBlocking.
  induction Q as [t vs qs IH] using SCPQuorumSet_nested_ind.
  intros [HR HRq]%everyNode_unfold [HF HFq]%everyNode_unfold Hall.
  destruct (thresholdInRange_fits _ _ _ HR HF) as [Ht Hn].
  rewrite Forall_forall in IH, HRq, HFq.
  assert (∀ q, q ∈ qs →
            isQuorumSliceInternal q S = true
            ∧ isVBlockingInternal q S = true) as Hqs.
  { intros q Hq. apply IH; auto. intros v Hv. apply Hall.
    by apply (elem_of_forAllNodesInternal_inner t vs qs q). }
  rewrite isQuorumSliceInternal_count
    by (unfold UINT32_MAX, INT_MAX in *; lia).
  rewrite isVBlockingInternal_count by done. rewrite !Z.leb_le.
  rewrite (hits_all (found S) vs).
  2:{ apply Forall_forall. intros v Hv. apply bool_decide_eq_true, Hall.
      by apply elem_of_forAllNodesInternal_validator. }
  rewrite (hits_all (λ inner, isQuorumSliceInternal inner S) qs)
    by (apply Forall_forall; intros q Hq; by apply Hqs).
  rewrite (hits_all (λ inner, isVBlockingInternal inner S) qs)
    by (apply Forall_forall; intros q Hq; by apply Hqs).
  lia.
Qed.

(** The [uint32] countdown started at 0: the first hit wraps it to
    [UINT32_MAX], out of reach of the hits that are left. *)
Lemma countDown_uint32_zero {A} (f : A → bool) xs :
  vsize xs ≤ UINT32_MAX →
  countDown dec_uint32 f xs 0 =
    FallThrough (if hits f xs =? 0 then 0 else 2 ^ 32 - hits f xs).
Proof.
  induction xs as [|x xs IH]; [done|].
  rewrite vsize_cons, hits_cons. intros Hlen. simpl.
  pose proof (hits_bounds f xs) as Hb.
  destruct (f x).
  - change (dec_uint32 0) with UINT32_MAX.
    change (UINT32_MAX <=? 0) with false. cbv iota.
    rewrite (countDown_exact dec_uint32 UINT32_MAX)
      by (apply dec_uint32_exact || done).
    destruct (Z.leb_spec UINT32_MAX (hits f xs)); [lia|].
    destruct (Z.eqb_spec (1 + hits f xs) 0); [lia|].
    f_equal. unfold UINT32_MAX. lia.
  - rewrite IH by lia. done.
Qed.

(** X6. A quorum set whose own threshold is 0 or exceeds its number of
    direct entries has no quorum slice at all (the threshold being a
    [uint32] and the entries at most [UINT32_MAX], as XDR vectors are):
    with threshold 0 the countdown wraps around instead of succeeding. *)
Theorem isQuorumSlice_out_of_range (Q : SCPQuorumSet) (S : list NodeID) :
  thresholdOutOfRange Q = true →
  0 ≤ threshold Q ≤ UINT32_MAX →
  totEntries Q ≤ UINT32_MAX →
  isQuorumSlice Q S = false.
Proof.
  destruct Q as [t vs qs]. unfold isQuorumSlice.
  intros Hbad Ht Hn. unfold thresholdOutOfRange, totEntries in Hbad, Hn.
  simpl in Hbad, Ht, Hn. rewrite orb_true_iff, Z.eqb_eq, Z.ltb_lt in Hbad.
  pose proof (vsize_nonneg vs) as Hv0. pose proof (vsize_nonneg qs) as Hq0.
  pose proof (hits_bounds (found S) vs) as Hv.
  pose proof (hits_bounds (λ inner, isQuorumSliceInternal inner S) qs) as Hq.
  destruct (Z.eq_dec t 0) as [->|Hnz].
  - rewrite isQuorumSliceInternal_eq, countDown_uint32_zero by lia.
    destruct (Z.eqb_spec (hits (found S) vs) 0).
    + by rewrite countDown_uint32_zero by lia.
    + rewrite (countDown_exact dec_uint32 UINT32_MAX)
        by (apply dec_uint32_exact || unfold UINT32_MAX in *; lia).
      destruct (Z.leb_spec (2 ^ 32 - hits (found S) vs)
                  (hits (λ inner, isQuorumSliceInternal inner S) qs));
        [unfold UINT32_MAX in *; lia | done].
  - rewrite isQuorumSliceInternal_count by lia. apply Z.leb_gt. lia.
Qed.


(** ** Singleton quorum sets *)

Lemma singleton_slice X S :
  isQuorumSliceInternal (buildSingletonQSet X) S = found S X.
Proof.
  unfold buildSingletonQSet.
  rewrite isQuorumSliceInternal_count by (unfold UINT32_MAX; lia).
  rewrite hits_cons, !hits_nil. by destruct (found S X).
Qed.

Lemma singleton_blocking X S :
  isVBlockingInternal (buildSingletonQSet X) S = found S X.
Proof.
  unfold buildSingletonQSet.
  rewrite isVBlockingInternal_count by (unfold INT_MAX, vsize; simpl; lia).
  rewrite hits_cons, !hits_nil. by destruct (found S X).
Qed.

Lemma singleton_wellFormed X : wellFormed (buildSingletonQSet X).
Proof. split; [done | apply NoDup_singleton]. Qed.

Section SingletonProperties.
Context {SecretKey Hash SCPHandle : Type}.
Implicit Types this : @LocalNode SecretKey Hash SCPHandle.

(** X7. The singleton quorum set of a node is sane for that node, on a
    validating and on a non-validating local node alike; a node set is a
    quorum slice of it iff it holds the node, and blocks it iff it holds the
    node. *)
Theorem singleton_sane_and_exact this (X : NodeID) (S : list NodeID) :
  isQuorumSetSane this X (getSingletonQSet X) = true
  ∧ (isQuorumSlice (getSingletonQSet X) S = true ↔ X ∈ S)
  ∧ (isVBlocking (getSingletonQSet X) S = true ↔ X ∈ S).
Proof.
  unfold getSingletonQSet, isQuorumSlice, isVBlocking.
  rewrite singleton_slice, singleton_blocking. unfold found.
  rewrite bool_decide_eq_true. split_and!; [|done..].
  apply isQuorumSetSane_true. split; [apply singleton_wellFormed|].
  left. apply elem_of_cons. by left.
Qed.
End SingletonProperties.

(** ** [forAllNodes] *)

Lemma elem_of_visitOnce calls seen n :
  n ∈ visitOnce calls seen ↔ n ∈ calls ∧ n ∉ seen.
Proof.
  revert seen. induction calls as [|c calls IH]; intros seen; simpl.
  - rewrite elem_of_nil. naive_solver.
  - case_bool_decide as Hc.
    + rewrite IH, elem_of_cons. naive_solver.
    + rewrite !elem_of_cons, IH.
      destruct (decide (n = c)) as [->|Hne]; set_solver.
Qed.

Lemma NoDup_visitOnce calls seen : NoDup (visitOnce calls seen).
Proof.
  revert seen. induction calls as [|c calls IH]; intros seen; simpl.
  - constructor.
  - case_bool_decide as Hc; [apply IH|].
    apply NoDup_cons. split; [|apply IH].
    rewrite elem_of_visitOnce. set_solver.
Qed.

Lemma visitOnce_sublist calls seen : visitOnce calls seen `sublist_of` calls.
Proof.
  revert seen. induction calls as [|c calls IH]; intros seen; simpl.
  - constructor.
  - case_bool_decide; [apply sublist_cons | apply sublist_skip]; apply IH.
Qed.

(** The lambda over two stretches of calls: the second stretch starts with
    the nodes of the first in [done]. *)
Lemma visitOnce_app calls1 calls2 seen :
  visitOnce (calls1 ++ calls2) seen =
    visitOnce calls1 seen ++ visitOnce calls2 (list_to_set calls1 ∪ seen).
Proof.
  revert seen. induction calls1 as [|c calls1 IH]; intros seen; simpl.
  - f_equal. set_solver.
  - assert (∀ X Y : gset NodeID, X = Y →
              visitOnce calls2 X = visitOnce calls2 Y) as Hsame
      by (by intros X Y ->).
    case_bool_decide as Hc; rewrite IH; simpl;
      [f_equal | do 2 f_equal];
      apply Hsame, set_eq; intros x;
      destruct (decide (x = c)) as [->|Hne]; set_solver.
Qed.

(** X8. [forAllNodes] runs [proc] exactly once on every validator of the
    tree, also when the tree names a validator several times: the nodes
    visited are pairwise distinct, they are the validators of the tree, and
    they come in the order of their first occurrence in the traversal: the
    nodes visited before a node [n] are those the traversal names before
    it first names [n], the nodes visited after it are those it names for
    the first time later on. *)
Theorem forAllNodes_each_once (Q : SCPQuorumSet) :
  NoDup (forAllNodes Q)
  ∧ (∀ n, n ∈ forAllNodes Q ↔ n ∈ forAllNodesInternal Q)
  ∧ forAllNodes Q `sublist_of` forAllNodesInternal Q
  ∧ (∀ pre n post,
       forAllNodesInternal Q = pre ++ n :: post → n ∉ pre →
       ∃ before after,
         forAllNodes Q = before ++ n :: after
         ∧ (∀ x, x ∈ before ↔ x ∈ pre)
         ∧ (∀ x, x ∈ after ↔ (x ∈ post ∧ (x ∉ pre) ∧ x ≠ n))).
Proof.
  unfold forAllNodes. split_and!.
  - apply NoDup_visitOnce.
  - intros n. rewrite elem_of_visitOnce. set_solver.
  - apply visitOnce_sublist.
  - intros pre n post -> Hfirst.
    exists (visitOnce pre ∅),
      (visitOnce post ({[n]} ∪ (list_to_set pre ∪ ∅))).
    split_and!.
    + rewrite visitOnce_app. simpl.
      rewrite bool_decide_eq_false_2; [done | set_solver].
    + intros x. rewrite elem_of_visitOnce. set_solver.
    + intros x. rewrite elem_of_visitOnce. set_solver.
Qed.

(** ** The canonical quorum set gives the local node a veto *)

Lemma adjustQSet_slice_needs_self self Q S :
  isQuorumSliceInternal (adjustQSet self Q) S = true → self ∈ S.
Proof.
  destruct (adjustQSet_cases self Q) as [[_ ->]|[_ ->]];
    rewrite isQuorumSliceInternal_count by (unfold UINT32_MAX; lia);
    rewrite !hits_cons, !hits_nil, Z.leb_le; unfold found;
    case_bool_decide; try done.
  destruct (isQuorumSliceInternal _ S); lia.
Qed.

(** X9. Every quorum slice of the canonical quorum set [adjustQSet] builds
    holds the local node, whatever the raw quorum set was. *)
Theorem adjustQSet_self_required (self : NodeID) (Q : SCPQuorumSet)
    (S : list NodeID) :
  isQuorumSlice (adjustQSet self Q) S = true → self ∈ S.
Proof. apply adjustQSet_slice_needs_self. Qed.

(** X10. The local node alone blocks the canonical quorum set [adjustQSet]
    builds: every node set that holds it is v-blocking. *)
Theorem adjustQSet_self_blocks (self : NodeID) (Q : SCPQuorumSet)
    (S : list NodeID) :
  self ∈ S → isVBlocking (adjustQSet self Q) S = true.
Proof.
  unfold isVBlocking.
  intros Hself.
  destruct (adjustQSet_cases self Q) as [[_ ->]|[_ ->]];
    rewrite isVBlockingInternal_count by (unfold INT_MAX, vsize; simpl; lia);
    rewrite !hits_cons, !hits_nil, Z.leb_le; unfold found;
    rewrite bool_decide_eq_true_2 by done; unfold vsize; simpl.
  - lia.
  - destruct (isVBlockingInternal _ S); lia.
Qed.

(** X11. In the canonical quorum set [adjustQSet] builds the local node has
    the full weight [UINT64_MAX], whatever the raw quorum set was. *)
Theorem adjustQSet_self_weight (self : NodeID) (Q : SCPQuorumSet) :
  getNodeWeight self (adjustQSet self Q) = UINT64_MAX.
Proof.
  destruct (adjustQSet_cases self Q) as [[_ ->]|[_ ->]];
    rewrite getNodeWeight_eq; simpl existsb;
    by rewrite bool_decide_eq_true_2.
Qed.


(** ** The candidate pool of [isQuorum] *)

Lemma elem_of_relevantNodes (map : gmap NodeID SCPEnvelope) filter n :
  n ∈ relevantNodes map filter ↔
  ∃ env, map !! n = Some env ∧ filter (statement env) = true.
Proof.
  unfold relevantNodes. rewrite list_elem_of_fmap. split.
  - intros ([k env] & -> & Hin).
    apply list_elem_of_In, filter_In in Hin as [Hin Hf].
    apply list_elem_of_In, elem_of_map_to_list in Hin. eauto.
  - intros (env & Hlook & Hf). exists (n, env). split; [done|].
    apply list_elem_of_In, filter_In. split; [|done].
    by apply list_elem_of_In, elem_of_map_to_list.
Qed.

Lemma filter_sublist {A} (f : A → bool) l : List.filter f l `sublist_of` l.
Proof.
  induction l as [|x l IH]; simpl; [constructor|].
  destruct (f x); [by apply sublist_skip | by apply sublist_cons].
Qed.

Lemma NoDup_relevantNodes (map : gmap NodeID SCPEnvelope) filter :
  NoDup (relevantNodes map filter).
Proof.
  unfold relevantNodes.
  eapply sublist_NoDup; [apply (NoDup_fst_map_to_list map)|].
  apply fmap_sublist, filter_sublist.
Qed.

Lemma filter_keeps_all {A} (f : A → bool) l :
  length (List.filter f l) = length l → List.filter f l = l.
Proof.
  induction l as [|x l IH]; simpl; [done|].
  pose proof (List.filter_length_le f l) as Hle.
  destruct (f x); simpl; intros Hlen; [f_equal; apply IH|]; lia.
Qed.

Lemma quorumLoop_sublist map qfun pNodes :
  (quorumLoop map qfun pNodes).1 `sublist_of` pNodes.
Proof.
  funelim (quorumLoop map qfun pNodes).
  - apply filter_sublist.
  - destruct (quorumLoop map qfun _) as [fNodes rounds]. simpl in *.
    etrans; [eassumption | apply filter_sublist].
Qed.

(** The loop stops on a pool the filter leaves alone. *)
Lemma quorumLoop_fixed map qfun pNodes :
  filterRound map qfun (quorumLoop map qfun pNodes).1
  = (quorumLoop map qfun pNodes).1.
Proof.
  funelim (quorumLoop map qfun pNodes).
  - simpl.
    assert (filterRound map qfun pNodes = pNodes) as Hsame
      by (unfold filterRound in e |- *; by apply filter_keeps_all).
    by rewrite !Hsame.
  - destruct (quorumLoop map qfun _) as [fNodes rounds]. by simpl in *.
Qed.

Lemma quorumLoop_consistent map qfun pNodes n :
  n ∈ (quorumLoop map qfun pNodes).1 →
  quorumFilter map qfun (quorumLoop map qfun pNodes).1 n = true.
Proof.
  intros Hn. rewrite <- quorumLoop_fixed in Hn at 1.
  by apply list_elem_of_In, filter_In in Hn as [_ Hn].
Qed.

(** A pool whose members all pass the filter on the pool itself survives
    every round. *)
Lemma quorumLoop_greatest map qfun pNodes (P : list NodeID) :
  (∀ n env, map !! n = Some env →
            everyNode thresholdPositive (qfun (statement env)) = true) →
  (∀ n, n ∈ P → quorumFilter map qfun P n = true) →
  (∀ n, n ∈ P → n ∈ pNodes) →
  ∀ n, n ∈ P → n ∈ (quorumLoop map qfun pNodes).1.
Proof.
  intros Htyped Hself.
  assert (∀ pool, (∀ n, n ∈ P → n ∈ pool) →
                  ∀ n, n ∈ P → n ∈ filterRound map qfun pool) as Hround.
  { intros pool Hsub n Hn. apply list_elem_of_In, filter_In.
    split; [by apply list_elem_of_In, Hsub|].
    specialize (Hself n Hn). unfold quorumFilter in *.
    destruct (map !! n) as [env|] eqn:Hlook; [|done].
    eapply isQuorumSliceInternal_mono; eauto. }
  funelim (quorumLoop map qfun pNodes); intros Hsub.
  - simpl. by apply Hround.
  - destruct (quorumLoop map qfun _) as [fNodes rounds]. simpl in *. eauto.
Qed.


(** X12. The statement-map form of [isVBlocking] depends on the map only
    through the set of keys whose statement passes the filter: it agrees
    with the node-set form on every node list that holds exactly those
    keys, in whatever order. *)
Theorem isVBlockingMap_by_membership (Q : SCPQuorumSet)
    (map : gmap NodeID SCPEnvelope) (filter : SCPStatement → bool)
    (S : list NodeID) :
  (∀ n, n ∈ S ↔ ∃ env, map !! n = Some env ∧ filter (statement env) = true) →
  isVBlockingMap Q map filter = isVBlocking Q S.
Proof.
  intros HS. unfold isVBlockingMap, isVBlocking.
  apply isVBlockingInternal_ext. intros v _.
  by rewrite elem_of_relevantNodes, HS.
Qed.

(** X13. When [isQuorum] returns true there is a quorum behind it: a set
    [F] of nodes whose statements pass the filter, each of whose own quorum
    sets has [F] as a quorum slice, and which is a quorum slice of the
    quorum set asked about. *)
Theorem isQuorum_sound (qSet : SCPQuorumSet)
    (map : gmap NodeID SCPEnvelope) (qfun : SCPStatement → SCPQuorumSet)
    (filter : SCPStatement → bool) :
  isQuorum qSet map qfun filter = true →
  ∃ F : list NodeID,
    NoDup F
    ∧ (∀ n, n ∈ F →
         ∃ env, map !! n = Some env ∧ filter (statement env) = true
                ∧ isQuorumSlice (qfun (statement env)) F = true)
    ∧ isQuorumSlice qSet F = true.
Proof.
  unfold isQuorum. intros Hslice.
  pose proof (quorumLoop_sublist map qfun (relevantNodes map filter)) as Hsub.
  pose proof (quorumLoop_consistent map qfun (relevantNodes map filter))
    as Hcons.
  set (F := (quorumLoop map qfun (relevantNodes map filter)).1) in *.
  exists F. split_and!; [|  |done].
  - eapply sublist_NoDup; [apply NoDup_relevantNodes | done].
  - intros n Hn. specialize (Hcons n Hn). unfold quorumFilter in Hcons.
    pose proof (elem_of_sublist _ _ _ Hn Hsub) as Hrel.
    apply elem_of_relevantNodes in Hrel as (env & Hlook & Hf).
    rewrite Hlook in Hcons. eauto.
Qed.

(** X14. [isQuorum] misses no quorum: if some set [P] of nodes whose
    statements pass the filter is a quorum slice of the own quorum set of
    each of its members and of the quorum set asked about, [isQuorum]
    returns true (all quorum sets involved having thresholds of at least 1
    at every node). *)
Theorem isQuorum_complete (qSet : SCPQuorumSet)
    (map : gmap NodeID SCPEnvelope) (qfun : SCPStatement → SCPQuorumSet)
    (filter : SCPStatement → bool) (P : list NodeID) :
  (∀ n env, map !! n = Some env →
            everyNode thresholdPositive (qfun (statement env)) = true) →
  everyNode thresholdPositive qSet = true →
  (∀ n, n ∈ P →
     ∃ env, map !! n = Some env ∧ filter (statement env) = true
            ∧ isQuorumSlice (qfun (statement env)) P = true) →
  isQuorumSlice qSet P = true →
  isQuorum qSet map qfun filter = true.
Proof.
  intros Htyped HqSet HP Hslice. unfold isQuorum.
  apply (isQuorumSliceInternal_mono qSet P); [done| |done].
  apply quorumLoop_greatest; [done| |].
  - intros n Hn. destruct (HP n Hn) as (env & Hlook & _ & Hown).
    unfold quorumFilter. by rewrite Hlook.
  - intros n Hn. destruct (HP n Hn) as (env & Hlook & Hf & _).
    apply elem_of_relevantNodes. eauto.
Qed.

(** ** What [findClosestVBlocking] returns *)

Lemma closestValidators_elem nodes vs leftTillBlock res leftTillBlock' res' :
  closestValidators nodes vs leftTillBlock res = Some (leftTillBlock', res') →
  ∀ n, n ∈ res' → n ∈ res ∨ (n ∈ vs ∧ n ∈ nodes).
Proof.
  revert leftTillBlock res.
  induction vs as [|v vs IH]; intros left res; simpl.
  - intros [= _ <-]. auto.
  - case_bool_decide as Hv.
    + intros Hloop n Hn. destruct (IH _ _ Hloop n Hn) as [Hin|[Hin Hnodes]].
      * apply elem_of_app in Hin as [Hin|Hin%list_elem_of_singleton];
          [by left | subst; right; split; [by left | done]].
      * right. split; [by right | done].
    + destruct (dec_size left =? 0); [done|].
      intros Hloop n Hn. destruct (IH _ _ Hloop n Hn) as [Hin|[Hin Hnodes]];
        [by left | right; split; [by right | done]].
Qed.

Lemma closestInner_elem closest qs leftTillBlock resInternals
    leftTillBlock' resInternals' :
  closestInner closest qs leftTillBlock resInternals
  = Some (leftTillBlock', resInternals') →
  ∀ w, w ∈ resInternals' →
       w ∈ resInternals ∨ ∃ q, q ∈ qs ∧ w = closest q.
Proof.
  revert leftTillBlock resInternals.
  induction qs as [|q qs IH]; intros left ri; simpl.
  - intros [= _ <-]. auto.
  - destruct (vsize (closest q) =? 0).
    + destruct (dec_size left =? 0); [done|].
      intros Hloop w Hw. destruct (IH _ _ Hloop w Hw) as [Hin|(q' & Hq' & ->)];
        [by left | right; exists q'; split; [by right | done]].
    + intros Hloop w Hw. destruct (IH _ _ Hloop w Hw) as [Hin|(q' & Hq' & ->)].
      * rewrite emplaceBySize_Permutation in Hin.
        apply elem_of_cons in Hin as [->|Hin]; [|by left].
        right. exists q. split; [by left | done].
      * right. exists q'. split; [by right | done].
Qed.

Lemma consumeInternals_elem resInternals leftTillBlock res n :
  n ∈ consumeInternals resInternals leftTillBlock res →
  n ∈ res ∨ ∃ w, w ∈ resInternals ∧ n ∈ w.
Proof.
  revert leftTillBlock res.
  induction resInternals as [|it rest IH]; intros left res; simpl; [auto|].
  destruct (left =? 0); [auto|].
  intros [Hn|(w & Hw & Hn)]%IH.
  - apply elem_of_app in Hn as [Hn|Hn]; [by left|].
    right. exists it. split; [by left | done].
  - right. exists w. split; [by right | done].
Qed.

Lemma findClosestVBlocking_members Q nodes n :
  n ∈ findClosestVBlocking Q nodes →
  n ∈ nodes ∧ n ∈ forAllNodesInternal Q.
Proof.
  induction Q as [t vs qs IH] using SCPQuorumSet_nested_ind.
  rewrite findClosestVBlocking_eq.
  destruct (closestValidators nodes vs _ []) as [[left res]|] eqn:Hvs;
    [|by intros ?%elem_of_nil].
  destruct (closestInner _ qs left []) as [[left' ri]|] eqn:Hqs;
    [|by intros ?%elem_of_nil].
  cbv zeta. intros [Hn|(w & Hw & Hn)]%consumeInternals_elem.
  - assert (n ∈ res) as Hres.
    { destruct (vsize res >? left'); [|done].
      by apply elem_of_take in Hn as (i & Hn%list_elem_of_lookup_2 & _). }
    destruct (closestValidators_elem _ _ _ _ _ _ Hvs n Hres)
      as [Hnil%elem_of_nil|[Hin Hnodes]]; [done|].
    split; [done | by apply elem_of_forAllNodesInternal_validator].
  - destruct (closestInner_elem _ _ _ _ _ _ Hqs w Hw)
      as [Hnil%elem_of_nil|(q & Hq & ->)]; [done|].
    rewrite Forall_forall in IH. destruct (IH q Hq Hn) as [Hnodes Hin].
    split; [done|].
    by apply (elem_of_forAllNodesInternal_inner t vs qs q).
Qed.

Lemma findClosestVBlocking_no_candidates Q : findClosestVBlocking Q ∅ = [].
Proof.
  destruct (findClosestVBlocking Q ∅) as [|n R] eqn:HR; [done|].
  assert (n ∈ findClosestVBlocking Q ∅) as Hn by (rewrite HR; by left).
  apply findClosestVBlocking_members in Hn as [Hn _]. set_solver.
Qed.

(** X15. Whatever the quorum set, every node [findClosestVBlocking]
    returns is one of the candidates and a validator of the quorum set; in
    particular nothing is returned for an empty candidate set. *)
Theorem findClosestVBlocking_from_candidates (Q : SCPQuorumSet)
    (C : gset NodeID) :
  (∀ n, n ∈ findClosestVBlocking Q C →
        n ∈ C ∧ n ∈ forAllNodesInternal Q)
  ∧ findClosestVBlocking Q ∅ = [].
Proof.
  split; [intros n; apply findClosestVBlocking_members|].
  apply findClosestVBlocking_no_candidates.
Qed.


(** ** A statement map without relevant statements *)

Lemma relevantNodes_none (map : gmap NodeID SCPEnvelope) filter :
  (∀ n env, map !! n = Some env → filter (statement env) = false) →
  relevantNodes map filter = [].
Proof.
  intros Hnone. destruct (relevantNodes map filter) as [|n l] eqn:Hrel; [done|].
  assert (n ∈ relevantNodes map filter) as Hn by (rewrite Hrel; by left).
  apply elem_of_relevantNodes in Hn as (env & Hlook & Hf).
  rewrite (Hnone n env Hlook) in Hf. done.
Qed.

Lemma quorumLoop_nil map qfun : quorumLoop map qfun [] = ([], 1%nat).
Proof. by simp quorumLoop. Qed.

(** X16. On a statement map in which no statement passes the filter, the
    empty map included, [isQuorum] runs its loop once and returns false,
    the map form of [isVBlocking] returns false and the map form of
    [findClosestVBlocking] returns nothing, whatever the quorum set. *)
Theorem no_relevant_statement (qSet : SCPQuorumSet)
    (map : gmap NodeID SCPEnvelope) (qfun : SCPStatement → SCPQuorumSet)
    (filter : SCPStatement → bool) :
  (∀ n env, map !! n = Some env → filter (statement env) = false) →
  isQuorum qSet map qfun filter = false
  ∧ isQuorum_rounds map qfun filter = 1%nat
  ∧ isVBlockingMap qSet map filter = false
  ∧ findClosestVBlockingMap qSet map filter = [].
Proof.
  intros Hnone%relevantNodes_none.
  unfold isQuorum, isQuorum_rounds, isVBlockingMap, findClosestVBlockingMap.
  rewrite Hnone, quorumLoop_nil. simpl. split_and!.
  - apply isQuorumSliceInternal_empty.
  - done.
  - apply isVBlockingInternal_empty.
  - apply findClosestVBlocking_no_candidates.
Qed.

(** ** An empty result means: already blocked *)

(** X17. For a quorum set whose thresholds are in range at every node
    (each node's entry count within [int]), [findClosestVBlocking] returns
    nothing exactly when the quorum set is already blocked by its validators
    outside the candidate set. *)
Theorem findClosestVBlocking_empty_iff_blocked (Q : SCPQuorumSet)
    (C : gset NodeID) (S : list NodeID) :
  everyNode thresholdInRange Q = true →
  everyNode entriesFitInt Q = true →
  (∀ v, v ∈ forAllNodesInternal Q → v ∈ S ↔ v ∉ C) →
  findClosestVBlocking Q C = [] ↔ isVBlocking Q S = true.
Proof.
  unfold isVBlocking.
  induction Q as [t vs qs IH] using SCPQuorumSet_nested_ind.
  intros [HR HRq]%everyNode_unfold [HF HFq]%everyNode_unfold Hout.
  destruct (thresholdInRange_fits _ _ _ HR HF) as [Ht Hn].
  rewrite Forall_forall in IH, HRq, HFq.
  rewrite isVBlockingInternal_count, Z.leb_le by done.
  set (closest := λ inner, findClosestVBlocking inner C).
  set (empty := λ q, vsize (closest q) =? 0).
  set (inNodes := λ v : NodeID, bool_decide (v ∈ C)).
  assert (hits (found S) vs = hits (λ v, negb (inNodes v)) vs) as ->.
  { apply hits_ext, Forall_forall. intros v Hv. unfold found, inNodes.
    rewrite <- bool_decide_not. apply bool_decide_ext, Hout.
    by apply elem_of_forAllNodesInternal_validator. }
  assert (hits (λ inner, isVBlockingInternal inner S) qs = hits empty qs)
    as ->.
  { apply hits_ext, Forall_forall. intros q Hq.
    assert (findClosestVBlocking q C = [] ↔ isVBlockingInternal q S = true)
      as Hiff.
    { apply IH; auto. intros v Hv. apply Hout.
      by apply (elem_of_forAllNodesInternal_inner t vs qs q). }
    unfold empty, closest, vsize.
    destruct (findClosestVBlocking q C) as [|n R];
      destruct (isVBlockingInternal q S); simpl; try done.
    - by apply Hiff.
    - destruct Hiff as [_ Hnil]. by specialize (Hnil eq_refl). }
  pose proof (hits_bounds (λ v, negb (inNodes v)) vs) as Ha.
  pose proof (hits_bounds empty qs) as Hb.
  pose proof (findClosestVBlocking_node t vs qs C Ht Hn) as Hnode.
  cbv zeta in Hnode.
  change (λ inner, findClosestVBlocking inner C) with closest in Hnode.
  change (λ q, vsize (closest q) =? 0) with empty in Hnode.
  change (λ v, bool_decide (v ∈ C)) with inNodes in Hnode.
  change (λ v, negb (bool_decide (v ∈ C)))
    with (λ v, negb (inNodes v)) in Hnode.
  destruct Hnode as [[HL ->]|(HL & sorted & Hp & ->)]; [split; [lia|done]|].
  split; [|lia]. intros Hnil. exfalso.
  apply app_eq_nil in Hnil as [Hpresent Hchosen].
  set (L := 1 + vsize vs + vsize qs - t
            - hits (λ v, negb (inNodes v)) vs - hits empty qs) in *.
  assert (∃ k, Z.to_nat L = Datatypes.S k) as [k Hk]
    by (exists (Z.to_nat L - 1)%nat; lia).
  rewrite Hk in Hpresent, Hchosen.
  destruct (List.filter inNodes vs) as [|v present] eqn:Hfilter; [|done].
  simpl in Hchosen.
  assert (vsize sorted = vsize qs - hits empty qs) as Hlen.
  { unfold vsize at 1. rewrite Hp, length_map.
    pose proof (hits_negb empty qs) as Hneg. unfold hits at 1 in Hneg.
    unfold vsize at 1 in Hneg. exact Hneg. }
  assert (vsize (List.filter inNodes vs)
          = vsize vs - hits (λ v, negb (inNodes v)) vs) as Hlen'.
  { rewrite hits_negb. unfold hits. lia. }
  rewrite Hfilter in Hlen'. unfold vsize in Hlen, Hlen'. simpl in Hlen'.
  destruct sorted as [|w sorted]; [unfold vsize in *; simpl in *; lia|].
  simpl in Hchosen. apply app_eq_nil in Hchosen as [-> _].
  assert ([] ∈ ([] :: sorted : list (list NodeID))) as Hin by by left.
  rewrite Hp in Hin.
  apply list_elem_of_In, in_map_iff in Hin as (q & Hq & Hin).
  apply filter_In in Hin as [_ Hin]. unfold empty in Hin.
  by rewrite Hq in Hin.
Qed.

(** X18. On a quorum set without inner sets whose validators are all
    candidates, [findClosestVBlocking] returns the first
    [1 + |validators| - threshold] validators, and they block the quorum
    set (threshold in range, the validators within [int]). *)
Theorem findClosestVBlocking_flat (t : Z) (vs : list NodeID)
    (C : gset NodeID) :
  1 ≤ t ≤ vsize vs →
  vsize vs ≤ INT_MAX →
  (∀ v, v ∈ vs → v ∈ C) →
  findClosestVBlocking (mkQSet t vs []) C
  = take (Z.to_nat (1 + vsize vs - t)) vs
  ∧ vsize (findClosestVBlocking (mkQSet t vs []) C) = 1 + vsize vs - t
  ∧ isVBlocking (mkQSet t vs []) (findClosestVBlocking (mkQSet t vs []) C)
    = true.
Proof.
  intros Ht Hn Hall.
  assert (everyNode thresholdInRange (mkQSet t vs []) = true) as HR.
  { apply everyNode_unfold. split; [|done].
    unfold thresholdInRange, totEntries. simpl.
    apply andb_true_iff. rewrite !Z.leb_le. unfold vsize at 2. simpl. lia. }
  assert (everyNode entriesFitInt (mkQSet t vs []) = true) as HF.
  { apply everyNode_unfold. split; [|done].
    unfold entriesFitInt, totEntries. simpl.
    apply Z.leb_le. unfold vsize at 2. simpl. lia. }
  assert (findClosestVBlocking (mkQSet t vs []) C
          = take (Z.to_nat (1 + vsize vs - t)) vs) as Heq.
  { destruct (findClosestVBlocking_node t vs [] C) as [[HL _]|(HL & sorted & Hp & ->)];
      [unfold vsize at 2; simpl; lia.. | |].
    - exfalso. revert HL. rewrite hits_nil.
      rewrite (hits_negb (λ v, bool_decide (v ∈ C))).
      rewrite (hits_all (λ v, bool_decide (v ∈ C)) vs)
        by (apply Forall_forall; intros v Hv; by apply bool_decide_eq_true, Hall).
      unfold vsize at 2. simpl. lia.
    - simpl in Hp. apply Permutation_nil_r in Hp as ->.
      rewrite take_nil, app_nil_r. rewrite hits_nil.
      rewrite (hits_negb (λ v, bool_decide (v ∈ C))).
      rewrite (hits_all (λ v, bool_decide (v ∈ C)) vs)
        by (apply Forall_forall; intros v Hv; by apply bool_decide_eq_true, Hall).
      assert (List.filter (λ v, bool_decide (v ∈ C)) vs = vs) as ->.
      { apply filter_keeps_all.
        pose proof (hits_all (λ v, bool_decide (v ∈ C)) vs) as Hh.
        unfold hits, vsize in Hh. apply Nat2Z.inj, Hh, Forall_forall.
        intros v Hv. by apply bool_decide_eq_true, Hall. }
      f_equal. unfold vsize at 2. simpl. lia. }
  split_and!; [done | |].
  - rewrite Heq. unfold vsize. rewrite length_take. unfold vsize in *. lia.
  - apply (findClosestVBlocking_blocks _ C); [done.. |].
    intros n [Hn'|(q & []%elem_of_nil & _)]%elem_of_forAllNodesInternal Hnot.
    destruct Hnot. by apply Hall.
Qed.


(** ** Canonicalisation of well-formed quorum sets *)

Lemma eraseLoop_spec {A} (visit : A → A) redundant xs t :
  0 ≤ t →
  eraseLoop visit redundant xs t =
    (List.filter (λ x, negb (redundant x)) (List.map visit xs),
     Z.max 0 (t - hits redundant (List.map visit xs))).
Proof.
  revert t. induction xs as [|x xs IH]; intros t Ht; simpl.
  - rewrite hits_nil. f_equal. lia.
  - rewrite hits_cons. pose proof (hits_bounds redundant (List.map visit xs)).
    destruct (redundant (visit x)); simpl.
    + rewrite IH by (unfold decIfNonZero; destruct (Z.eqb_spec t 0); lia).
      f_equal. unfold decIfNonZero. destruct (Z.eqb_spec t 0); lia.
    + rewrite IH by done. do 2 f_equal; lia.
Qed.

Lemma filter_map_commute {A B} (g : A → B) (f : B → bool) l :
  List.filter f (List.map g l) = List.map g (List.filter (λ x, f (g x)) l).
Proof.
  induction l as [|x l IH]; simpl; [done|].
  destruct (f (g x)); simpl; by rewrite IH.
Qed.

(** The helper at a node: the inner sets the recursion leaves with
    threshold 0 and the validators equal to [self] are erased, the threshold
    is lowered by their number (not below 0), and a wrapper around a single
    inner set is replaced by that set. *)
Lemma adjustQSetHelper_shape self t vs qs :
  0 ≤ t →
  (∃ X,
      Z.max 0 (t - hits (λ q, threshold (adjustQSetHelper self q) =? 0) qs
                 - hits (λ v, bool_decide (v = self)) vs) = 1
      ∧ List.filter (λ v, negb (bool_decide (v = self))) vs = []
      ∧ List.map (adjustQSetHelper self)
          (List.filter
             (λ q, negb (threshold (adjustQSetHelper self q) =? 0)) qs) = [X]
      ∧ adjustQSetHelper self (mkQSet t vs qs) = X)
  ∨ adjustQSetHelper self (mkQSet t vs qs) =
      mkQSet
        (Z.max 0 (t - hits (λ q, threshold (adjustQSetHelper self q) =? 0) qs
                    - hits (λ v, bool_decide (v = self)) vs))
        (List.filter (λ v, negb (bool_decide (v = self))) vs)
        (List.map (adjustQSetHelper self)
           (List.filter
              (λ q, negb (threshold (adjustQSetHelper self q) =? 0)) qs)).
Proof.
  intros Ht.
  rewrite adjustQSetHelper_eq, eraseLoop_spec by done.
  rewrite eraseLoop_spec by lia.
  rewrite List.map_id, filter_map_commute, hits_map.
  set (i := List.map (adjustQSetHelper self)
              (List.filter
                 (λ q, negb (threshold (adjustQSetHelper self q) =? 0)) qs)).
  set (v := List.filter (λ v, negb (bool_decide (v = self))) vs).
  set (erased := λ q, threshold (adjustQSetHelper self q) =? 0).
  set (isSelf := λ v : NodeID, bool_decide (v = self)).
  replace (Z.max 0 (Z.max 0 (t - hits erased qs) - hits isSelf vs))
    with (Z.max 0 (t - hits erased qs - hits isSelf vs))
    by (pose proof (hits_bounds isSelf vs); lia).
  set (t' := Z.max 0 (t - hits erased qs - hits isSelf vs)).
  destruct ((t' =? 1) && (vsize v =? 0) && (vsize i =? 1)) eqn:Hwrap;
    [|by right].
  left. apply andb_true_iff in Hwrap as [[H1 Hv]%andb_true_iff Hi].
  apply Z.eqb_eq in H1, Hv, Hi.
  destruct v as [|? v'];
    [|rewrite vsize_cons in Hv; pose proof (vsize_nonneg v'); lia].
  destruct i as [|X [|? i']];
    [done | | rewrite !vsize_cons in Hi; pose proof (vsize_nonneg i'); lia].
  by exists X.
Qed.

(** ** C7: the shape of the canonical quorum set *)

Lemma strippedRemainder_eq self t vs qs :
  strippedRemainder self (mkQSet t vs qs) =
    let stripped := List.filter (λ v, negb (bool_decide (v = self))) vs in
    let kept :=
      List.filter (λ r, negb (threshold r =? 0))
        (List.map (strippedRemainder self) qs) in
    let removals := (vsize vs - vsize stripped) + (vsize qs - vsize kept) in
    let lowered := Z.max 0 (t - removals) in
    match stripped, kept with
    | [], [single] =>
        if lowered =? 1 then single else mkQSet lowered stripped kept
    | _, _ => mkQSet lowered stripped kept
    end.
Proof. reflexivity. Qed.

(** [adjustQSetHelper] computes the remainder of the specification. *)
Lemma adjustQSetHelper_refines self Q :
  everyNode thresholdUint32 Q = true →
  adjustQSetHelper self Q = strippedRemainder self Q.
Proof.
  induction Q as [t vs qs IH] using SCPQuorumSet_nested_ind.
  intros [Ht Hqs]%everyNode_unfold.
  unfold thresholdUint32 in Ht. simpl in Ht.
  apply andb_true_iff in Ht as [Ht%Z.leb_le _].
  assert (List.map (adjustQSetHelper self) qs
          = List.map (strippedRemainder self) qs) as Hmap.
  { apply List.map_ext_in. intros q Hq%list_elem_of_In.
    rewrite Forall_forall in IH, Hqs. auto. }
  rewrite adjustQSetHelper_eq, strippedRemainder_eq.
  rewrite eraseLoop_spec by done. rewrite eraseLoop_spec by lia.
  rewrite List.map_id, Hmap. cbv zeta.
  set (isSelf := λ v : NodeID, bool_decide (v = self)).
  set (erased := λ r : SCPQuorumSet, threshold r =? 0).
  set (rs := List.map (strippedRemainder self) qs).
  change (List.filter (λ v, negb (bool_decide (v = self))) vs)
    with (List.filter (λ v, negb (isSelf v)) vs).
  change (List.filter (λ r, negb (threshold r =? 0)) rs)
    with (List.filter (λ r, negb (erased r)) rs).
  assert (vsize (List.filter (λ v, negb (isSelf v)) vs)
          = vsize vs - hits isSelf vs) as Hv
    by (rewrite <- hits_negb; done).
  assert (vsize (List.filter (λ r, negb (erased r)) rs)
          = vsize qs - hits erased rs) as Hq.
  { replace (vsize qs) with (vsize rs)
      by (unfold rs, vsize; by rewrite length_map).
    rewrite <- hits_negb. done. }
  pose proof (hits_bounds isSelf vs). pose proof (hits_bounds erased rs).
  replace (Z.max 0 (Z.max 0 (t - hits erased rs) - hits isSelf vs))
    with (Z.max 0 (t - (vsize vs - vsize (List.filter (λ v, negb (isSelf v)) vs)
                        + (vsize qs
                           - vsize (List.filter (λ r, negb (erased r)) rs)))))
    by lia.
  set (lowered := Z.max 0 _).
  destruct (List.filter (λ v, negb (isSelf v)) vs) as [|v stripped].
  - destruct (List.filter (λ r, negb (erased r)) rs) as [|single [|r kept]].
    + by rewrite andb_false_r.
    + change (vsize [single]) with 1. change (vsize (@nil NodeID)) with 0.
      change (0 =? 0) with true. change (1 =? 1) with true.
      rewrite !andb_true_r. by destruct (lowered =? 1).
    + rewrite !vsize_cons. pose proof (vsize_nonneg kept).
      replace (1 + (1 + vsize kept) =? 1) with false
        by (symmetry; apply Z.eqb_neq; lia).
      by rewrite andb_false_r.
  - rewrite vsize_cons. pose proof (vsize_nonneg stripped).
    replace (1 + vsize stripped =? 0) with false
      by (symmetry; apply Z.eqb_neq; lia).
    by rewrite andb_false_r.
Qed.

(** C7. For a raw quorum set [Q] (thresholds being values of [uint32]),
    [adjustQSet] produces [{threshold=1, validators=[self]}] when the
    remainder (the input with the local node stripped out, thresholds
    lowered and the tree simplified, as the specification describes it)
    has threshold 0, and otherwise
    [{threshold=2, validators=[self], innerSets=[remainder]}], where the
    remainder names the local node at no depth. *)
Theorem adjustQSet_shape (self : NodeID) (Q : SCPQuorumSet) :
  everyNode thresholdUint32 Q = true →
  let remainder := strippedRemainder self Q in
  (threshold remainder = 0 ∧ adjustQSet self Q = mkQSet 1 [self] [])
  ∨ (threshold remainder ≠ 0
     ∧ adjustQSet self Q = mkQSet 2 [self] [remainder]
     ∧ self ∉ forAllNodesInternal remainder).
Proof.
  intros Huint remainder. subst remainder.
  rewrite <- (adjustQSetHelper_refines self Q Huint).
  destruct (adjustQSet_cases self Q) as [[Hz HQ]|[Hnz HQ]]; [by left|].
  right. split_and!; [done..|].
  apply adjusted_without_self, adjustQSetHelper_adjusted.
Qed.

Lemma concat_map_sublist {A B} (f g : A → list B) (keep : A → bool) l :
  Forall (λ x, g x `sublist_of` f x) l →
  concat (List.map g (List.filter keep l)) `sublist_of` concat (List.map f l).
Proof.
  induction 1 as [|x l Hx _ IH]; simpl; [constructor|].
  destruct (keep x); simpl.
  - by apply sublist_app.
  - by apply sublist_inserts_l.
Qed.

Lemma adjustQSetHelper_sublist self Q :
  everyNode (λ q, 0 <=? threshold q) Q = true →
  forAllNodesInternal (adjustQSetHelper self Q)
    `sublist_of` forAllNodesInternal Q.
Proof.
  induction Q as [t vs qs IH] using SCPQuorumSet_nested_ind.
  intros [Ht Hqs]%everyNode_unfold. simpl in Ht. apply Z.leb_le in Ht.
  assert (concat (List.map forAllNodesInternal
                    (List.map (adjustQSetHelper self)
                       (List.filter
                          (λ q, negb (threshold (adjustQSetHelper self q) =? 0))
                          qs)))
          `sublist_of` concat (List.map forAllNodesInternal qs)) as Hinner.
  { rewrite List.map_map. apply concat_map_sublist.
    rewrite Forall_forall in *. auto. }
  destruct (adjustQSetHelper_shape self t vs qs Ht)
    as [(X & _ & Hv & Hi & ->) | ->].
  - rewrite Hi in Hinner. simpl in Hinner. rewrite app_nil_r in Hinner.
    simpl. by apply sublist_inserts_l.
  - simpl. apply sublist_app; [apply filter_sublist | done].
Qed.

Lemma thresholdInRange_nonneg Q :
  everyNode thresholdInRange Q = true →
  everyNode (λ q, 0 <=? threshold q) Q = true.
Proof.
  induction Q as [t vs qs IH] using SCPQuorumSet_nested_ind.
  rewrite !everyNode_unfold. intros [Ht Hqs]. split.
  - unfold thresholdInRange in Ht. simpl in *.
    apply andb_true_iff in Ht as [Ht _]. apply Z.leb_le in Ht.
    apply Z.leb_le. lia.
  - rewrite Forall_forall in *. auto.
Qed.

Lemma adjustQSetHelper_range self Q :
  everyNode thresholdInRange Q = true →
  threshold (adjustQSetHelper self Q) = 0
  ∨ everyNode thresholdInRange (adjustQSetHelper self Q) = true.
Proof.
  induction Q as [t vs qs IH] using SCPQuorumSet_nested_ind.
  intros [Ht Hqs]%everyNode_unfold.
  unfold thresholdInRange, totEntries in Ht. simpl in Ht.
  apply andb_true_iff in Ht as [Ht1 Ht2]. apply Z.leb_le in Ht1, Ht2.
  set (erased := λ q, threshold (adjustQSetHelper self q) =? 0).
  set (isSelf := λ v : NodeID, bool_decide (v = self)).
  assert (Forall (λ q, everyNode thresholdInRange q = true)
            (List.map (adjustQSetHelper self)
               (List.filter
                  (λ q, negb (threshold (adjustQSetHelper self q) =? 0))
                  qs))) as Hkept.
  { apply Forall_forall. intros R HR.
    apply list_elem_of_In, in_map_iff in HR as (q & <- & Hq).
    apply filter_In in Hq as [Hq Hne]. apply list_elem_of_In in Hq.
    rewrite Forall_forall in IH, Hqs.
    destruct (IH q Hq (Hqs q Hq)) as [Hz|HR]; [|done].
    by rewrite Hz in Hne. }
  destruct (adjustQSetHelper_shape self t vs qs) as [(X & _ & _ & Hi & ->) | ->];
    [lia | | ].
  - right. rewrite Hi in Hkept.
    by apply Forall_cons in Hkept as [? _].
  - fold erased isSelf.
    change (λ q, negb (threshold (adjustQSetHelper self q) =? 0))
      with (λ q, negb (erased q)).
    change (λ v, negb (bool_decide (v = self)))
      with (λ v, negb (isSelf v)).
    set (t' := Z.max 0 (t - hits erased qs - hits isSelf vs)).
    destruct (Z.eq_dec t' 0) as [Hz|Hnz]; [by left|]. right.
    apply everyNode_unfold. split; [|done].
    unfold thresholdInRange, totEntries. simpl. fold t'.
    apply andb_true_iff. rewrite !Z.leb_le.
    assert (vsize (List.filter (λ v, negb (isSelf v)) vs)
            = vsize vs - hits isSelf vs) as ->
      by (rewrite <- hits_negb; done).
    assert (vsize (List.map (adjustQSetHelper self)
                     (List.filter (λ q, negb (erased q)) qs))
            = vsize qs - hits erased qs) as ->.
    { unfold vsize at 1. rewrite length_map.
      pose proof (hits_negb erased qs) as Hneg. unfold hits at 1 in Hneg.
      unfold vsize at 1 in Hneg. exact Hneg. }
    pose proof (hits_bounds erased qs). pose proof (hits_bounds isSelf vs).
    subst t'. lia.
Qed.

Lemma adjustQSet_wellFormed self Q :
  wellFormed Q → wellFormed (adjustQSet self Q).
Proof.
  intros [HR Hnd].
  destruct (adjustQSet_cases self Q) as [[_ ->]|[Hnz ->]].
  - apply singleton_wellFormed.
  - split.
    + apply everyNode_unfold. split; [done|].
      apply Forall_cons. split; [|done].
      by destruct (adjustQSetHelper_range self Q HR).
    + simpl. rewrite app_nil_r. apply NoDup_cons. split.
      * apply adjusted_without_self, adjustQSetHelper_adjusted.
      * eapply sublist_NoDup; [exact Hnd|].
        by apply adjustQSetHelper_sublist, thresholdInRange_nonneg.
Qed.

Section CanonicalSanity.
Context {SecretKey Hash SCPHandle : Type}.
Context (getPublicKey : SecretKey → NodeID).
Context (xdr_to_opaque : SCPQuorumSet → list Byte.byte).
Context (sha256 : list Byte.byte → Hash).
Implicit Types this : @LocalNode SecretKey Hash SCPHandle.

(** X19. Canonicalisation keeps a well-formed quorum set well-formed, and
    the result names the local node: [adjustQSet] of a well-formed quorum
    set passes [isQuorumSetSane] for the local node's ID, on a validating
    and on a non-validating node alike. *)
Theorem adjustQSet_sane this (self : NodeID) (Q : SCPQuorumSet) :
  wellFormed Q →
  wellFormed (adjustQSet self Q)
  ∧ isQuorumSetSane this self (adjustQSet self Q) = true.
Proof.
  intros Hwf%(adjustQSet_wellFormed self). split; [done|].
  apply isQuorumSetSane_true. split; [done|]. left.
  destruct (adjustQSet_cases self Q) as [[_ ->]|[_ ->]];
    apply elem_of_forAllNodesInternal_validator, elem_of_cons; by left.
Qed.

(** X20. A node constructed from a well-formed raw quorum set finds its own
    stored quorum set sane for its own ID, and the hash it stores is the
    hash of that quorum set. *)
Theorem newLocalNode_sane (secretKey : SecretKey) (isValidator : bool)
    (Q : SCPQuorumSet) (scp : SCPHandle) :
  wellFormed Q →
  let node :=
    newLocalNode getPublicKey xdr_to_opaque sha256
      secretKey isValidator Q scp in
  isQuorumSetSane node (getNodeID node) (getQuorumSet node) = true
  ∧ getQuorumSetHash node = sha256 (xdr_to_opaque (getQuorumSet node))
  ∧ getNodeID node = getPublicKey secretKey.
Proof.
  intros Hwf%(adjustQSet_wellFormed (getPublicKey secretKey)) node.
  split; [|done]. unfold node, getNodeID, getQuorumSet. simpl.
  apply isQuorumSetSane_true. split; [done|]. left.
  destruct (adjustQSet_cases (getPublicKey secretKey) Q) as [[_ ->]|[_ ->]];
    apply elem_of_forAllNodesInternal_validator, elem_of_cons; by left.
Qed.
End CanonicalSanity.


(** ** Canonicalisation and quorum slices *)

Lemma adjustQSetHelper_slice self Q S :
  everyNode thresholdPositive Q = true →
  self ∈ S →
  (threshold (adjustQSetHelper self Q) = 0
   ∧ isQuorumSliceInternal Q S = true)
  ∨ (threshold (adjustQSetHelper self Q) ≠ 0
     ∧ everyNode thresholdPositive (adjustQSetHelper self Q) = true
     ∧ isQuorumSliceInternal (adjustQSetHelper self Q) S
       = isQuorumSliceInternal Q S).
Proof.
  intros HQ Hself. induction Q as [t vs qs IH] using SCPQuorumSet_nested_ind.
  apply everyNode_unfold in HQ as [Ht Hqs].
  apply thresholdPositive_bounds in Ht.
  rewrite Forall_forall in IH, Hqs.
  set (erased := λ q, threshold (adjustQSetHelper self q) =? 0).
  set (isSelf := λ v : NodeID, bool_decide (v = self)).
  set (sliceOf := λ q, isQuorumSliceInternal q S).
  set (kept := List.filter (λ q, negb (erased q)) qs).
  set (v := List.filter (λ v, negb (isSelf v)) vs).
  (* every erased validator was a hit *)
  assert (hits (found S) vs = hits isSelf vs + hits (found S) v) as HV.
  { rewrite (hits_split (found S) isSelf vs). f_equal.
    apply hits_all, Forall_forall. intros x Hx.
    apply list_elem_of_In, filter_In in Hx as [_ Hx].
    apply bool_decide_eq_true in Hx as ->. by apply bool_decide_eq_true. }
  (* every erased inner set was satisfied *)
  assert (hits sliceOf qs = hits erased qs + hits sliceOf kept) as HI.
  { rewrite (hits_split sliceOf erased qs). f_equal.
    apply hits_all, Forall_forall. intros q Hq.
    apply list_elem_of_In, filter_In in Hq as [Hq Hz].
    apply list_elem_of_In in Hq. apply Z.eqb_eq in Hz.
    destruct (IH q Hq (Hqs q Hq)) as [[_ Hs]|[Hnz _]]; done. }
  (* the inner sets that are kept are satisfied as before *)
  assert (hits sliceOf (List.map (adjustQSetHelper self) kept)
          = hits sliceOf kept) as HK.
  { rewrite hits_map. apply hits_ext, Forall_forall. intros q Hq.
    apply list_elem_of_In, filter_In in Hq as [Hq Hnz].
    apply list_elem_of_In in Hq. apply negb_true_iff, Z.eqb_neq in Hnz.
    destruct (IH q Hq (Hqs q Hq)) as [[Hz _]|(_ & _ & Heq)]; done. }
  assert (Forall (λ R, threshold R ≠ 0
                       ∧ everyNode thresholdPositive R = true)
            (List.map (adjustQSetHelper self) kept)) as HT.
  { apply Forall_forall. intros R HR.
    apply list_elem_of_In, in_map_iff in HR as (q & <- & Hq).
    apply filter_In in Hq as [Hq Hnz]. apply list_elem_of_In in Hq.
    apply negb_true_iff, Z.eqb_neq in Hnz.
    destruct (IH q Hq (Hqs q Hq)) as [[Hz _]|(_ & Hpos & _)]; done. }
  pose proof (hits_bounds isSelf vs) as Hb1.
  pose proof (hits_bounds erased qs) as Hb2.
  pose proof (hits_bounds (found S) v) as Hb3.
  pose proof (hits_bounds sliceOf kept) as Hb4.
  rewrite (isQuorumSliceInternal_count t vs qs) by done.
  fold sliceOf. rewrite HV, HI.
  pose proof (adjustQSetHelper_shape self t vs qs) as Hshape.
  change (λ q, threshold (adjustQSetHelper self q) =? 0)
    with erased in Hshape.
  change (λ q, negb (threshold (adjustQSetHelper self q) =? 0))
    with (λ q, negb (erased q)) in Hshape.
  change (λ v, bool_decide (v = self)) with isSelf in Hshape.
  change (λ v, negb (bool_decide (v = self)))
    with (λ v, negb (isSelf v)) in Hshape.
  fold kept v in Hshape.
  destruct Hshape as [(X & Ht' & Hv & Hi & ->) | ->]; [lia | |].
  - right. rewrite Hi in HT, HK. apply Forall_cons in HT as [[HX1 HX2] _].
    split_and!; [done..|].
    rewrite Hv, hits_nil. rewrite <- HK, hits_cons, hits_nil.
    unfold sliceOf at 1.
    destruct (isQuorumSliceInternal X S); symmetry;
      [apply Z.leb_le | apply Z.leb_gt]; lia.
  - set (t' := Z.max 0 (t - hits erased qs - hits isSelf vs)).
    destruct (Z.eq_dec t' 0) as [Hz|Hnz].
    + left. split; [done|]. apply Z.leb_le. lia.
    + right. simpl threshold. split_and!; [done | |].
      * apply everyNode_unfold. split.
        -- unfold thresholdPositive. simpl. apply andb_true_iff.
           rewrite !Z.leb_le. lia.
        -- eapply Forall_impl; [exact HT|]. by intros R [_ ?].
      * rewrite isQuorumSliceInternal_count by lia.
        fold sliceOf. rewrite HK.
        destruct (Z.leb_spec t' (hits (found S) v + hits sliceOf kept));
          symmetry; [apply Z.leb_le | apply Z.leb_gt]; lia.
Qed.

(** X21. Canonicalisation keeps the quorum slices that hold the local node
    and only those: for a raw quorum set whose thresholds are at least 1 at
    every node, a node set is a quorum slice of [adjustQSet]'s result iff it
    holds the local node and is a quorum slice of the raw quorum set. *)
Theorem adjustQSet_slices (self : NodeID) (Q : SCPQuorumSet)
    (S : list NodeID) :
  everyNode thresholdPositive Q = true →
  isQuorumSlice (adjustQSet self Q) S = true ↔
  self ∈ S ∧ isQuorumSlice Q S = true.
Proof.
  intros HQ. unfold isQuorumSlice. split.
  - intros Hslice.
    pose proof (adjustQSet_slice_needs_self self Q S Hslice) as Hself.
    split; [done|].
    destruct (adjustQSetHelper_slice self Q S HQ Hself)
      as [[_ HS]|(Hnz & _ & Heq)]; [done|].
    destruct (adjustQSet_cases self Q) as [[Hz _]|[_ HR]]; [done|].
    rewrite HR in Hslice. rewrite <- Heq.
    rewrite isQuorumSliceInternal_count in Hslice by (unfold UINT32_MAX; lia).
    rewrite !hits_cons, !hits_nil in Hslice. apply Z.leb_le in Hslice.
    destruct (isQuorumSliceInternal (adjustQSetHelper self Q) S); [done|].
    destruct (found S self); lia.
  - intros [Hself Hslice].
    destruct (adjustQSet_cases self Q) as [[_ ->]|[Hnz ->]];
      rewrite isQuorumSliceInternal_count by (unfold UINT32_MAX; lia);
      rewrite !hits_cons, !hits_nil; unfold found at 1;
      rewrite (bool_decide_eq_true_2 (self ∈ S)) by done; [done|].
    destruct (adjustQSetHelper_slice self Q S HQ Hself)
      as [[Hz _]|(_ & _ & ->)]; [done|].
    by rewrite Hslice.
Qed.


(** ** The result of [findClosestVBlocking] names no node twice *)

Lemma concat_sublist {A} (l k : list (list A)) :
  l `sublist_of` k → concat l `sublist_of` concat k.
Proof.
  induction 1; simpl; [constructor | by apply sublist_app |].
  by apply sublist_inserts_l.
Qed.

Lemma concat_Permutation {A} (l k : list (list A)) :
  l ≡ₚ k → concat l ≡ₚ concat k.
Proof.
  induction 1 as [|x l k _ IH|x y l|l k m _ IH1 _ IH2]; simpl.
  - done.
  - by rewrite IH.
  - rewrite !app_assoc. f_equiv. apply Permutation_app_comm.
  - by rewrite IH1.
Qed.

Lemma concat_map_submseteq {A B} (f g : A → list B) (keep : A → bool) l :
  Forall (λ x, g x ⊆+ f x) l →
  concat (List.map g (List.filter keep l)) ⊆+ concat (List.map f l).
Proof.
  induction 1 as [|x l Hx _ IH]; simpl; [done|].
  destruct (keep x); simpl.
  - by apply submseteq_app.
  - by apply submseteq_inserts_l.
Qed.

Lemma findClosestVBlocking_submseteq Q C :
  everyNode thresholdInRange Q = true →
  everyNode entriesFitInt Q = true →
  findClosestVBlocking Q C ⊆+ forAllNodesInternal Q.
Proof.
  induction Q as [t vs qs IH] using SCPQuorumSet_nested_ind.
  intros [HR HRq]%everyNode_unfold [HF HFq]%everyNode_unfold.
  destruct (thresholdInRange_fits _ _ _ HR HF) as [Ht Hn].
  destruct (findClosestVBlocking_node t vs qs C Ht Hn)
    as [[_ ->]|(_ & sorted & Hp & ->)]; [apply submseteq_nil_l|].
  simpl. apply submseteq_app.
  - apply sublist_submseteq. etrans; [apply sublist_take|].
    apply filter_sublist.
  - etrans; [apply sublist_submseteq, concat_sublist, sublist_take|].
    rewrite (concat_Permutation _ _ Hp).
    apply concat_map_submseteq.
    rewrite Forall_forall in *. auto.
Qed.

(** X22. For a well-formed quorum set (each node's entry count within
    [int]) the nodes [findClosestVBlocking] returns are pairwise
    distinct. *)
Theorem findClosestVBlocking_NoDup (Q : SCPQuorumSet) (C : gset NodeID) :
  wellFormed Q →
  everyNode entriesFitInt Q = true →
  NoDup (findClosestVBlocking Q C).
Proof.
  intros [HR Hnd] HF.
  destruct (submseteq_Permutation _ _
              (findClosestVBlocking_submseteq Q C HR HF)) as [k Hk].
  rewrite Hk in Hnd. by apply NoDup_app in Hnd as [? _].
Qed.

(** ** The weight of a direct validator *)

(** X23. A direct validator of a quorum set whose threshold is in range
    (at most [UINT32_MAX] entries, as XDR vectors have) weighs
    [UINT64_MAX * threshold / entries], whatever the inner sets hold; the
    weight is positive and no larger than [UINT64_MAX]. *)
Theorem getNodeWeight_direct (v : NodeID) (Q : SCPQuorumSet) :
  v ∈ validators Q →
  1 ≤ threshold Q ≤ totEntries Q →
  totEntries Q ≤ UINT32_MAX →
  getNodeWeight v Q = UINT64_MAX * threshold Q / totEntries Q
  ∧ 0 < getNodeWeight v Q ≤ UINT64_MAX.
Proof.
  destruct Q as [t vs qs]. unfold totEntries.
  cbn [threshold validators innerSets].
  intros Hv Ht Hn. rewrite getNodeWeight_eq.
  assert (existsb (λ qsetNode, bool_decide (qsetNode = v)) vs = true) as ->.
  { apply existsb_exists. exists v.
    split; [by apply list_elem_of_In | by apply bool_decide_eq_true]. }
  unfold bigDivide, wrap_uint64. rewrite (Z.add_comm (vsize qs)).
  set (d := vsize vs + vsize qs) in *.
  assert (1 ≤ UINT64_MAX * t / d ≤ UINT64_MAX) as Hq.
  { unfold UINT64_MAX, UINT32_MAX in *. split.
    - apply Z.div_le_lower_bound; nia.
    - apply Z.div_le_upper_bound; nia. }
  rewrite Z.mod_small by (unfold UINT64_MAX in *; lia). lia.
Qed.

(** ** The state of the local node over its lifetime *)

Section Lifetime.
Context {SecretKey Hash SCPHandle : Type}.
Context (getPublicKey : SecretKey → NodeID).
Context (xdr_to_opaque : SCPQuorumSet → list Byte.byte).
Context (sha256 : list Byte.byte → Hash).

(** X24. After construction and any sequence of [updateQuorumSet] calls,
    the stored hash is the hash of the stored quorum set, the stored set is
    the last one given (the canonicalised raw set if there was no update),
    and the node's ID, validator flag, singleton set and its hash are those
    set by the constructor. *)
Theorem lifetime_invariant (secretKey : SecretKey) (validating : bool)
    (Q : SCPQuorumSet) (scp : SCPHandle) (updates : list SCPQuorumSet) :
  let node :=
    foldl (updateQuorumSet xdr_to_opaque sha256)
      (newLocalNode getPublicKey xdr_to_opaque sha256
         secretKey validating Q scp)
      updates in
  getQuorumSetHash node = sha256 (xdr_to_opaque (getQuorumSet node))
  ∧ getQuorumSet node
    = List.last updates (adjustQSet (getPublicKey secretKey) Q)
  ∧ getNodeID node = getPublicKey secretKey
  ∧ isValidator node = validating
  ∧ mSingleQSet node = buildSingletonQSet (getPublicKey secretKey)
  ∧ gSingleQSetHash node
    = sha256 (xdr_to_opaque (buildSingletonQSet (getPublicKey secretKey))).
Proof.
  induction updates as [|q updates IH] using rev_ind; [done|].
  rewrite foldl_snoc, List.last_last. cbv zeta in IH |- *.
  destruct IH as (_ & _ & ? & ? & ? & ?). done.
Qed.
End Lifetime.


(** ** The map form of [findClosestVBlocking] *)

(** X25. Every node the statement-map form of [findClosestVBlocking]
    returns has a statement in the map that passes the filter, and is a
    validator of the quorum set. *)
Theorem findClosestVBlockingMap_relevant (Q : SCPQuorumSet)
    (map : gmap NodeID SCPEnvelope) (filter : SCPStatement → bool)
    (n : NodeID) :
  n ∈ findClosestVBlockingMap Q map filter →
  (∃ env, map !! n = Some env ∧ filter (statement env) = true)
  ∧ n ∈ forAllNodesInternal Q.
Proof.
  unfold findClosestVBlockingMap.
  intros [Hn Hin]%findClosestVBlocking_members. split; [|done].
  by apply elem_of_list_to_set, elem_of_relevantNodes in Hn.
Qed.

(** ** Sane quorum sets: blocking is the complement of satisfying *)

Section SaneDuality.
Context {SecretKey Hash SCPHandle : Type}.
Implicit Types this : @LocalNode SecretKey Hash SCPHandle.

(** X26. On a quorum set that passed [isQuorumSetSane] (each node's entry
    count within [int]), a node set blocks the quorum set exactly when the
    validators outside it are no quorum slice: [isVBlocking Q S] is the
    negation of [isQuorumSlice] on the validators of [Q] not in [S]. *)
Theorem sane_blocking_is_no_slice_outside this (nodeID : NodeID)
    (Q : SCPQuorumSet) (S : list NodeID) :
  isQuorumSetSane this nodeID Q = true →
  everyNode entriesFitInt Q = true →
  isVBlocking Q S
  = negb (isQuorumSlice Q
            (List.filter (λ v, negb (found S v)) (forAllNodesInternal Q))).
Proof.
  intros [[HR _] _]%isQuorumSetSane_true HF.
  unfold isVBlocking, isQuorumSlice.
  set (T := List.filter (λ v, negb (found S v)) (forAllNodesInternal Q)).
  destruct (isVBlockingInternal Q S) eqn:Hvb.
  - destruct (isQuorumSliceInternal Q T) eqn:Hqs; [|done].
    destruct (vblocking_meets_slice Q S T); try done.
    intros n Hn. apply list_elem_of_In, filter_In in Hn as [_ Hn].
    by apply negb_true_iff, bool_decide_eq_false in Hn.
  - rewrite (not_vblocking_slice Q S T); try done.
    intros n Hin HnS. apply list_elem_of_In, filter_In.
    split; [by apply list_elem_of_In|].
    by apply negb_true_iff, bool_decide_eq_false.
Qed.
End SaneDuality.

End SCP.

(** * Concrete instances

    Node identifiers are numbers here; [nA], [nB], [nC] and [nD] are four
    distinct nodes. *)

Module Instances.

Definition nA : N := 1%N.
Definition nB : N := 2%N.
Definition nC : N := 3%N.
Definition nD : N := 4%N.

(** [{t: 2, A, B, C}]. *)
Definition flat : SCPQuorumSet := mkQSet 2 [nA; nB; nC] [].

(** [{t: 2, A, {t: 1, B, C}, {t: 2, D, self}}] for a fifth node. *)
Definition nested : SCPQuorumSet :=
  mkQSet 2 [nA] [mkQSet 1 [nB; nC] []; mkQSet 2 [nD; 5%N] []].

(** [{t: 1, A, B, 3, 4, ...}]: a flat set of [INT_MAX + 2] validators. *)
Definition crowd : SCPQuorumSet :=
  mkQSet 1 (nA :: nB :: (N.of_nat <$> seq 3 (Z.to_nat INT_MAX))) [].

(** A validating node [A] whose quorum set is [flat]. *)
Definition validatorA : @LocalNode N unit unit unit :=
  mkLocalNode nA tt true flat tt tt (buildSingletonQSet nA) tt.

(** A map with the single statement of [A], whose quorum set
    [{t: 1, B}] names a node that made no statement. *)
Definition lonely : gmap N (@SCPEnvelope (@SCPQuorumSet N) unit) :=
  {[ nA := mkEnvelope (mkQSet 1 [nB] []) tt ]}.

(** Decidable facts about concrete data, by evaluation. *)
Ltac by_evaluation :=
  refine (bool_decide_unpack _ _); vm_compute; exact I.

Lemma flat_wellFormed : wellFormed flat.
Proof. split; [reflexivity | by_evaluation]. Defined.

Lemma nested_wellFormed : wellFormed nested.
Proof. split; [reflexivity | by_evaluation]. Defined.

(** *** C1 *)

Lemma isVBlocking_dual_witness :
  wellFormed nested
  ∧ everyNode entriesFitInt nested = true
  ∧ (isVBlocking nested [nA; nB] = true ↔
     ¬ ∃ T : list N,
         (∀ n, n ∈ T → n ∉ [nA; nB]) ∧ isQuorumSlice nested T = true).
Proof.
  pose proof nested_wellFormed as Hwf.
  assert (Hfit : everyNode entriesFitInt nested = true) by reflexivity.
  exact (conj Hwf (conj Hfit (isVBlocking_dual nested [nA; nB] Hwf Hfit))).
Defined.

(** Without the bound on the entries: [crowd] is well formed and has
    [INT_MAX + 2] validators, so [leftTillBlock] starts at
    [(int) (INT_MAX + 2)], a negative number. [[A]] is reported v-blocking
    although the disjoint [[B]] is a quorum slice. *)
Lemma isVBlocking_blocks_beside_slice :
  wellFormed crowd
  ∧ totEntries crowd = INT_MAX + 2
  ∧ isVBlocking crowd [nA] = true
  ∧ (∀ n, n ∈ [nB] → n ∉ [nA])
  ∧ isQuorumSlice crowd [nB] = true
  ∧ ¬ (isVBlocking crowd [nA] = true ↔
       ¬ ∃ T : list N,
           (∀ n, n ∈ T → n ∉ [nA]) ∧ isQuorumSlice crowd T = true).
Proof.
  assert (0 ≤ INT_MAX ≤ UINT32_MAX - 2) as [Hpos Hmax] by (by vm_compute).
  assert (∀ n, n ∈ [nB] → n ∉ [nA]) as Hdisj.
  { intros n ->%list_elem_of_singleton Hin%list_elem_of_singleton.
    discriminate Hin. }
  set (rest := N.of_nat <$> seq 3 (Z.to_nat INT_MAX)).
  assert (vsize rest = INT_MAX) as Hrest.
  { unfold rest, vsize. rewrite length_fmap, length_seq.
    exact (Z2Nat.id _ Hpos). }
  assert (∀ n, n ∈ rest → (3 ≤ n)%N) as Hfrom.
  { intros n (i & -> & Hi%elem_of_seq)%list_elem_of_fmap. lia. }
  assert (NoDup (nA :: nB :: rest)) as Hnodup.
  { apply NoDup_cons_2; [|apply NoDup_cons_2].
    - intros [Hab|Hin%Hfrom]%elem_of_cons; [discriminate|].
      unfold nA in Hin. lia.
    - intros Hin%Hfrom. unfold nB in Hin. lia.
    - apply (NoDup_fmap_2 _), NoDup_seq. }
  assert (INT_MAX ≤ vsize rest ≤ UINT32_MAX - 2) as Hsize.
  { rewrite Hrest. split; [apply Z.le_refl | exact Hmax]. }
  destruct (isVBlocking_int_cast_overflow nA nB rest Hnodup Hsize)
    as (Hwf & _ & Hblock & Hslice).
  split_and!; [exact Hwf | | exact Hblock | exact Hdisj | exact Hslice |].
  - change (totEntries crowd)
      with (vsize (nA :: nB :: rest) + vsize (@nil (@SCPQuorumSet N))).
    rewrite !vsize_cons, Hrest. apply Z.add_0_r.
  - intros Hdual. apply Hdual; [exact Hblock|].
    exists [nB]. exact (conj Hdisj Hslice).
Qed.

(** *** C2 *)

Lemma isQuorumSlice_threshold_exact_witness :
  everyNode thresholdPositive nested = true
  ∧ nA ≠ nB ∧ nA ≠ nC ∧ nB ≠ nC
  ∧ (isQuorumSlice nested [nA; nC] = true ↔ satisfied nested [nA; nC] = true)
  ∧ isQuorumSlice (mkQSet 2 [nA; nB; nC] []) [nA; nB] = true
  ∧ isQuorumSlice (mkQSet 2 [nA; nB; nC] []) [nA] = false
  ∧ isQuorumSlice (mkQSet 2 [nA; nB; nC] []) [] = false.
Proof.
  assert (Hpos : everyNode thresholdPositive nested = true) by reflexivity.
  assert (Hab : nA ≠ nB) by discriminate.
  assert (Hac : nA ≠ nC) by discriminate.
  assert (Hbc : nB ≠ nC) by discriminate.
  exact (conj Hpos (conj Hab (conj Hac (conj Hbc
           (isQuorumSlice_threshold_exact nested [nA; nC] nA nB nC
              Hpos Hab Hac Hbc))))).
Defined.

(** *** C3 *)

(** With [C] outside the candidates [{A, B}], the search over
    [{t: 2, A, B, C}] returns [[A]]: [C] already counts as blocked, one
    more node is needed. [[A]] alone does not block the set. *)
Lemma findClosestVBlocking_result_not_blocking :
  let C : gset N := {[nA; nB]} in
  let R := findClosestVBlocking flat C in
  wellFormed flat
  ∧ R = [nA]
  ∧ ¬ ((∀ n, n ∈ R → n ∈ C) ∧ isVBlocking flat R = true).
Proof.
  split_and!; [exact flat_wellFormed | by vm_compute |].
  intros [_ Hblock]. vm_compute in Hblock. discriminate.
Qed.

Lemma findClosestVBlocking_sound_witness :
  let C : gset N := {[nA; nB]} in
  wellFormed flat
  ∧ everyNode entriesFitInt flat = true
  ∧ findClosestVBlocking flat C ≠ []
  ∧ (∀ n, n ∈ findClosestVBlocking flat C → n ∈ C)
  ∧ (∀ S : list N,
       (∀ n, n ∈ findClosestVBlocking flat C → n ∈ S) →
       (∀ n, n ∈ forAllNodesInternal flat → n ∉ C → n ∈ S) →
       isVBlocking flat S = true).
Proof.
  intros C.
  pose proof flat_wellFormed as Hwf.
  assert (Hfit : everyNode entriesFitInt flat = true) by reflexivity.
  assert (Hne : findClosestVBlocking flat C ≠ [])
    by (vm_compute; discriminate).
  exact (conj Hwf (conj Hfit (conj Hne
           (findClosestVBlocking_sound flat C Hwf Hfit Hne)))).
Defined.

(** *** C4 *)

(** One candidate, two rounds: the first round drops [A], the second
    finds the empty pool unchanged. *)
Lemma isQuorum_rounds_exceed_pool :
  let pNodes := relevantNodes lonely (λ _, true) in
  pNodes = [nA]
  ∧ isQuorum_rounds lonely id (λ _, true) = 2%nat
  ∧ ¬ (isQuorum_rounds lonely id (λ _, true) ≤ length pNodes)%nat.
Proof.
  split_and!; [by vm_compute | by vm_compute |].
  vm_compute. lia.
Qed.

(** *** C5 *)

Lemma isQuorumSetSane_rejects_malformed_witness :
  let Q := mkQSet 1 [nA] [mkQSet 3 [nB; nC] []] in
  (someNode thresholdOutOfRange Q = true
   ∨ (∃ (i j : nat) (n : N),
        i ≠ j ∧ forAllNodesInternal Q !! i = Some n
        ∧ forAllNodesInternal Q !! j = Some n))
  ∧ isQuorumSetSane validatorA nA Q = false.
Proof.
  intros Q.
  assert (Hbad : someNode thresholdOutOfRange Q = true) by reflexivity.
  exact (conj (or_introl Hbad)
           (isQuorumSetSane_rejects_malformed validatorA nA Q
              (or_introl Hbad))).
Defined.

(** *** C6 *)

Lemma isQuorumSetSane_self_inclusion_witness :
  wellFormed flat
  ∧ (nD ∉ forAllNodesInternal flat →
       (isQuorumSetSane validatorA nD flat = true ↔
        mIsValidator validatorA = false ∧ nD = mNodeID validatorA)
       ∧ (mIsValidator validatorA = true →
          isQuorumSetSane validatorA nD flat = false))
  ∧ (nD ∈ forAllNodesInternal flat →
     isQuorumSetSane validatorA nD flat = true).
Proof.
  pose proof flat_wellFormed as Hwf.
  exact (conj Hwf (isQuorumSetSane_self_inclusion validatorA nD flat Hwf)).
Defined.

(** *** C7 *)

Lemma adjustQSet_shape_witness :
  everyNode thresholdUint32 nested = true
  ∧ (let remainder := strippedRemainder 5%N nested in
     (threshold remainder = 0 ∧ adjustQSet 5%N nested = mkQSet 1 [5%N] [])
     ∨ (threshold remainder ≠ 0
        ∧ adjustQSet 5%N nested = mkQSet 2 [5%N] [remainder]
        ∧ 5%N ∉ forAllNodesInternal remainder)).
Proof.
  assert (Huint : everyNode thresholdUint32 nested = true) by reflexivity.
  exact (conj Huint (adjustQSet_shape 5%N nested Huint)).
Defined.

(** *** C9 *)

Lemma getNodeWeight_normalised_witness :
  nA ≠ nB
  ∧ (nD ∉ forAllNodesInternal flat)
  ∧ getNodeWeight nA (mkQSet 1 [nA; nB] []) = UINT64_MAX / 2
  ∧ getNodeWeight nB (mkQSet 1 [nA; nB] []) = UINT64_MAX / 2
  ∧ UINT64_MAX / 2 = 1 * UINT64_MAX / totEntries (mkQSet 1 [nA; nB] [])
  ∧ getNodeWeight nD flat = 0.
Proof.
  assert (Hab : nA ≠ nB) by discriminate.
  assert (Hout : nD ∉ forAllNodesInternal flat) by by_evaluation.
  exact (conj Hab (conj Hout
           (getNodeWeight_normalised nA nB nD flat Hab Hout))).
Defined.

(** ** Instances of the further properties *)

(** The statements of [A] and [B], who name each other, and of [C], whose
    quorum set names [D], a node that made no statement. *)
Definition ab : SCPQuorumSet := mkQSet 2 [nA; nB] [].

Definition trio : gmap N (@SCPEnvelope (@SCPQuorumSet N) unit) :=
  {[ nA := mkEnvelope ab tt;
     nB := mkEnvelope ab tt;
     nC := mkEnvelope (mkQSet 1 [nD] []) tt ]}.

Lemma nodeSet_membership_only_witness :
  (∀ v, v ∈ forAllNodesInternal flat →
        v ∈ [nA; nB] ↔ v ∈ [nB; nA; nA; 9%N])
  ∧ isQuorumSlice flat [nA; nB] = isQuorumSlice flat [nB; nA; nA; 9%N]
  ∧ isVBlocking flat [nA; nB] = isVBlocking flat [nB; nA; nA; 9%N].
Proof.
  assert (Hsame : ∀ v, v ∈ forAllNodesInternal flat →
                       v ∈ [nA; nB] ↔ v ∈ [nB; nA; nA; 9%N])
    by (apply Forall_forall; by_evaluation).
  exact (conj Hsame
           (nodeSet_membership_only flat [nA; nB] [nB; nA; nA; 9%N] Hsame)).
Defined.

Lemma isQuorumSlice_monotone_witness :
  everyNode thresholdPositive nested = true
  ∧ (∀ v, v ∈ [nA; nB] → v ∈ [nA; nB; nC])
  ∧ isQuorumSlice nested [nA; nB] = true
  ∧ isQuorumSlice nested [nA; nB; nC] = true.
Proof.
  assert (Hpos : everyNode thresholdPositive nested = true) by reflexivity.
  assert (Hsub : ∀ v, v ∈ [nA; nB] → v ∈ [nA; nB; nC])
    by (apply Forall_forall; by_evaluation).
  assert (Hslice : isQuorumSlice nested [nA; nB] = true) by reflexivity.
  exact (conj Hpos (conj Hsub (conj Hslice
           (isQuorumSlice_monotone nested [nA; nB] [nA; nB; nC]
              Hpos Hsub Hslice)))).
Defined.

Lemma isVBlocking_monotone_witness :
  everyNode thresholdInRange flat = true
  ∧ everyNode entriesFitInt flat = true
  ∧ (∀ v, v ∈ [nA; nB] → v ∈ [nA; nB; nC])
  ∧ isVBlocking flat [nA; nB] = true
  ∧ isVBlocking flat [nA; nB; nC] = true.
Proof.
  assert (Hrange : everyNode thresholdInRange flat = true) by reflexivity.
  assert (Hfit : everyNode entriesFitInt flat = true) by reflexivity.
  assert (Hsub : ∀ v, v ∈ [nA; nB] → v ∈ [nA; nB; nC])
    by (apply Forall_forall; by_evaluation).
  assert (Hblock : isVBlocking flat [nA; nB] = true) by reflexivity.
  exact (conj Hrange (conj Hfit (conj Hsub (conj Hblock
           (isVBlocking_monotone flat [nA; nB] [nA; nB; nC]
              Hrange Hfit Hsub Hblock))))).
Defined.

Lemma all_validators_slice_and_block_witness :
  everyNode thresholdInRange nested = true
  ∧ everyNode entriesFitInt nested = true
  ∧ (∀ v, v ∈ forAllNodesInternal nested → v ∈ forAllNodesInternal nested)
  ∧ isQuorumSlice nested (forAllNodesInternal nested) = true
  ∧ isVBlocking nested (forAllNodesInternal nested) = true.
Proof.
  assert (Hrange : everyNode thresholdInRange nested = true) by reflexivity.
  assert (Hfit : everyNode entriesFitInt nested = true) by reflexivity.
  assert (Hall : ∀ v, v ∈ forAllNodesInternal nested →
                      v ∈ forAllNodesInternal nested) by (intros v Hv; exact Hv).
  exact (conj Hrange (conj Hfit (conj Hall
           (all_validators_slice_and_block nested
              (forAllNodesInternal nested) Hrange Hfit Hall)))).
Defined.

Lemma isQuorumSlice_out_of_range_witness :
  let Q : SCPQuorumSet := mkQSet 0 [nA] [] in
  thresholdOutOfRange Q = true
  ∧ 0 ≤ threshold Q ≤ UINT32_MAX
  ∧ totEntries Q ≤ UINT32_MAX
  ∧ isQuorumSlice Q [nA] = false.
Proof.
  intros Q.
  assert (Hbad : thresholdOutOfRange Q = true) by reflexivity.
  assert (Ht : 0 ≤ threshold Q ≤ UINT32_MAX) by (vm_compute; intuition discriminate).
  assert (Hn : totEntries Q ≤ UINT32_MAX) by (vm_compute; discriminate).
  exact (conj Hbad (conj Ht (conj Hn
           (isQuorumSlice_out_of_range Q [nA] Hbad Ht Hn)))).
Defined.

Lemma adjustQSet_self_required_witness :
  isQuorumSlice (adjustQSet nA flat) [nA; nB] = true ∧ nA ∈ [nA; nB].
Proof.
  assert (Hslice : isQuorumSlice (adjustQSet nA flat) [nA; nB] = true)
    by reflexivity.
  exact (conj Hslice (adjustQSet_self_required nA flat [nA; nB] Hslice)).
Defined.

Lemma adjustQSet_self_blocks_witness :
  nA ∈ [nA] ∧ isVBlocking (adjustQSet nA nested) [nA] = true.
Proof.
  assert (Hself : nA ∈ [nA]) by by_evaluation.
  exact (conj Hself (adjustQSet_self_blocks nA nested [nA] Hself)).
Defined.

Lemma isVBlockingMap_by_membership_witness :
  (∀ n, n ∈ [nB; nA; nC] ↔
        ∃ env, trio !! n = Some env ∧ (λ _, true) (statement env) = true)
  ∧ isVBlockingMap flat trio (λ _, true) = isVBlocking flat [nB; nA; nC].
Proof.
  assert (Hkeys : ∀ n, n ∈ [nB; nA; nC] ↔
                       ∃ env, trio !! n = Some env
                              ∧ (λ _, true) (statement env) = true).
  { intros n. rewrite <- (elem_of_relevantNodes trio (λ _, true) n).
    assert (relevantNodes trio (λ _, true) ≡ₚ [nB; nA; nC]) as ->
      by by_evaluation.
    reflexivity. }
  exact (conj Hkeys
           (isVBlockingMap_by_membership flat trio (λ _, true)
              [nB; nA; nC] Hkeys)).
Defined.

Lemma isQuorum_sound_witness :
  isQuorum flat trio id (λ _, true) = true
  ∧ ∃ F : list N,
      NoDup F
      ∧ (∀ n, n ∈ F →
           ∃ env, trio !! n = Some env ∧ (λ _, true) (statement env) = true
                  ∧ isQuorumSlice (id (statement env)) F = true)
      ∧ isQuorumSlice flat F = true.
Proof.
  assert (Hq : isQuorum flat trio id (λ _, true) = true) by (vm_compute; reflexivity).
  exact (conj Hq (isQuorum_sound flat trio id (λ _, true) Hq)).
Defined.

Lemma isQuorum_complete_witness :
  (∀ n env, trio !! n = Some env →
            everyNode thresholdPositive (id (statement env)) = true)
  ∧ everyNode thresholdPositive flat = true
  ∧ (∀ n, n ∈ [nA; nB] →
       ∃ env, trio !! n = Some env ∧ (λ _, true) (statement env) = true
              ∧ isQuorumSlice (id (statement env)) [nA; nB] = true)
  ∧ isQuorumSlice flat [nA; nB] = true
  ∧ isQuorum flat trio id (λ _, true) = true.
Proof.
  assert (Htyped : ∀ n env, trio !! n = Some env →
                     everyNode thresholdPositive (id (statement env)) = true).
  { change (map_Forall
              (λ (_ : N) env,
                 everyNode thresholdPositive (id (statement env)) = true)
              trio).
    by_evaluation. }
  assert (Hpos : everyNode thresholdPositive flat = true) by reflexivity.
  assert (HP : ∀ n, n ∈ [nA; nB] →
                 ∃ env, trio !! n = Some env
                        ∧ (λ _, true) (statement env) = true
                        ∧ isQuorumSlice (id (statement env)) [nA; nB] = true).
  { intros n Hn. exists (mkEnvelope ab tt).
    apply elem_of_cons in Hn as [->|Hn];
      [|apply elem_of_cons in Hn as [->|Hn]; [|by apply elem_of_nil in Hn]];
      repeat split; vm_compute; reflexivity. }
  assert (Hslice : isQuorumSlice flat [nA; nB] = true) by reflexivity.
  exact (conj Htyped (conj Hpos (conj HP (conj Hslice
           (isQuorum_complete flat trio id (λ _, true) [nA; nB]
              Htyped Hpos HP Hslice))))).
Defined.

Lemma no_relevant_statement_witness :
  (∀ n env, trio !! n = Some env → (λ _, false) (statement env) = false)
  ∧ isQuorum flat trio id (λ _, false) = false
  ∧ isQuorum_rounds trio id (λ _, false) = 1%nat
  ∧ isVBlockingMap flat trio (λ _, false) = false
  ∧ findClosestVBlockingMap flat trio (λ _, false) = [].
Proof.
  assert (Hnone : ∀ n env, trio !! n = Some env →
                    (λ _, false) (statement env) = false)
    by (intros n env _; reflexivity).
  exact (conj Hnone (no_relevant_statement flat trio id (λ _, false) Hnone)).
Defined.

Lemma findClosestVBlocking_empty_iff_blocked_witness :
  let C : gset N := {[nA]} in
  everyNode thresholdInRange flat = true
  ∧ everyNode entriesFitInt flat = true
  ∧ (∀ v, v ∈ forAllNodesInternal flat → v ∈ [nB; nC] ↔ v ∉ C)
  ∧ (findClosestVBlocking flat C = [] ↔ isVBlocking flat [nB; nC] = true).
Proof.
  intros C.
  assert (Hrange : everyNode thresholdInRange flat = true) by reflexivity.
  assert (Hfit : everyNode entriesFitInt flat = true) by reflexivity.
  assert (Hout : ∀ v, v ∈ forAllNodesInternal flat →
                      v ∈ [nB; nC] ↔ v ∉ C)
    by (apply Forall_forall; by_evaluation).
  exact (conj Hrange (conj Hfit (conj Hout
           (findClosestVBlocking_empty_iff_blocked flat C [nB; nC]
              Hrange Hfit Hout)))).
Defined.

Lemma findClosestVBlocking_flat_witness :
  let vs := [nA; nB; nC; nD] in
  let C : gset N := {[nA; nB; nC; nD]} in
  1 ≤ 3 ≤ vsize vs
  ∧ vsize vs ≤ INT_MAX
  ∧ (∀ v, v ∈ vs → v ∈ C)
  ∧ findClosestVBlocking (mkQSet 3 vs []) C
    = take (Z.to_nat (1 + vsize vs - 3)) vs
  ∧ vsize (findClosestVBlocking (mkQSet 3 vs []) C) = 1 + vsize vs - 3
  ∧ isVBlocking (mkQSet 3 vs []) (findClosestVBlocking (mkQSet 3 vs []) C)
    = true.
Proof.
  intros vs C.
  assert (Ht : 1 ≤ 3 ≤ vsize vs) by (vm_compute; intuition discriminate).
  assert (Hn : vsize vs ≤ INT_MAX) by (vm_compute; discriminate).
  assert (Hall : ∀ v, v ∈ vs → v ∈ C) by (apply Forall_forall; by_evaluation).
  exact (conj Ht (conj Hn (conj Hall
           (findClosestVBlocking_flat 3 vs C Ht Hn Hall)))).
Defined.

Lemma adjustQSet_sane_witness :
  wellFormed nested
  ∧ wellFormed (adjustQSet nA nested)
  ∧ isQuorumSetSane validatorA nA (adjustQSet nA nested) = true.
Proof.
  pose proof nested_wellFormed as Hwf.
  exact (conj Hwf (adjustQSet_sane validatorA nA nested Hwf)).
Defined.

Lemma newLocalNode_sane_witness :
  let node :=
    newLocalNode (λ _ : unit, nA) (λ _, []) (λ _, tt) tt true nested tt in
  wellFormed nested
  ∧ isQuorumSetSane node (getNodeID node) (getQuorumSet node) = true
  ∧ getQuorumSetHash node = tt
  ∧ getNodeID node = nA.
Proof.
  pose proof nested_wellFormed as Hwf.
  exact (conj Hwf
           (newLocalNode_sane (λ _ : unit, nA) (λ _, []) (λ _, tt)
              tt true nested tt Hwf)).
Defined.

Lemma adjustQSet_slices_witness :
  everyNode thresholdPositive nested = true
  ∧ (isQuorumSlice (adjustQSet nA nested) [nA; nB] = true ↔
     nA ∈ [nA; nB] ∧ isQuorumSlice nested [nA; nB] = true).
Proof.
  assert (Hpos : everyNode thresholdPositive nested = true) by reflexivity.
  exact (conj Hpos (adjustQSet_slices nA nested [nA; nB] Hpos)).
Defined.

Lemma findClosestVBlocking_NoDup_witness :
  wellFormed nested
  ∧ everyNode entriesFitInt nested = true
  ∧ NoDup (findClosestVBlocking nested {[nA; nB; nD]}).
Proof.
  pose proof nested_wellFormed as Hwf.
  assert (Hfit : everyNode entriesFitInt nested = true) by reflexivity.
  exact (conj Hwf (conj Hfit
           (findClosestVBlocking_NoDup nested {[nA; nB; nD]} Hwf Hfit))).
Defined.

Lemma getNodeWeight_direct_witness :
  nB ∈ validators flat
  ∧ 1 ≤ threshold flat ≤ totEntries flat
  ∧ totEntries flat ≤ UINT32_MAX
  ∧ getNodeWeight nB flat = UINT64_MAX * threshold flat / totEntries flat
  ∧ 0 < getNodeWeight nB flat ≤ UINT64_MAX.
Proof.
  assert (Hv : nB ∈ validators flat) by by_evaluation.
  assert (Ht : 1 ≤ threshold flat ≤ totEntries flat)
    by (vm_compute; intuition discriminate).
  assert (Hn : totEntries flat ≤ UINT32_MAX) by (vm_compute; discriminate).
  exact (conj Hv (conj Ht (conj Hn (getNodeWeight_direct nB flat Hv Ht Hn)))).
Defined.

Lemma findClosestVBlockingMap_relevant_witness :
  nA ∈ findClosestVBlockingMap flat trio (λ _, true)
  ∧ (∃ env, trio !! nA = Some env ∧ (λ _, true) (statement env) = true)
  ∧ nA ∈ forAllNodesInternal flat.
Proof.
  assert (Hin : nA ∈ findClosestVBlockingMap flat trio (λ _, true))
    by by_evaluation.
  exact (conj Hin
           (findClosestVBlockingMap_relevant flat trio (λ _, true) nA Hin)).
Defined.

Lemma sane_blocking_is_no_slice_outside_witness :
  isQuorumSetSane validatorA nA nested = true
  ∧ everyNode entriesFitInt nested = true
  ∧ isVBlocking nested [nA; nB]
    = negb (isQuorumSlice nested
              (List.filter (λ v, negb (found [nA; nB] v))
                 (forAllNodesInternal nested))).
Proof.
  assert (Hsane : isQuorumSetSane validatorA nA nested = true)
    by (vm_compute; reflexivity).
  assert (Hfit : everyNode entriesFitInt nested = true) by reflexivity.
  exact (conj Hsane (conj Hfit
           (sane_blocking_is_no_slice_outside validatorA nA nested [nA; nB]
              Hsane Hfit))).
Defined.

End Instances.
